(** * Globe.tsx: the arc/point dataset builder and the animation driver

    A shallow embedding of [src/components/ui/Globe.tsx]: the colour decoder
    [hexToRgb], the point builder [_buildData], the layer configuration
    [startAnimation], the reject-and-retry index selection [genRandomNumbers]
    and the ring interval effect, with the properties the specification
    states about them.

    Conventions of the embedding.
    - A JavaScript string is a [string] (a sequence of code units).
    - A JavaScript number that carries a coordinate, a size or a time is an
      IEEE-754 binary64 value, the kernel's [float]; [===] on numbers is
      [PrimFloat.eqb] (NaN differs from itself, the two zeros are equal).
    - A number produced by [parseInt] is [Int z] or [NotANumber]; lengths,
      indices and counts are integers in [Z].
    - [Math.random()] is an explicit source [nat -> Q] read at a cursor that
      every call advances; a value of the source is the exact rational value
      of the double that [Math.random] returned.
    - A loop without a bound takes fuel and answers [None] when it is used up. *)

From Stdlib Require Import ZArith List Bool Ascii String Lia.
From Stdlib Require Import QArith Qround Lqa Floats.
From Stdlib Require Uint63.
From Stdlib Require Import DecimalString.
Import ListNotations.

Set Warnings "-inexact-float".
Local Open Scope Z_scope.

(** ** Regular expressions of the shape used by [hexToRgb]

    Both patterns are anchored ([^ ... $], no [m] flag) sequences of an
    optional literal character and capture groups of a fixed number of
    characters of one class.  [exec] is the backtracking matcher for this
    fragment: an optional character is tried greedily first. *)

Module Regex.

Inductive atom : Type :=
| OptChar (c : ascii)
| Capture (n : nat) (cls : ascii -> bool).

Fixpoint take_class (n : nat) (cls : ascii -> bool) (s : string)
  : option (string * string) :=
  match n with
  | O => Some (EmptyString, s)
  | S n' =>
      match s with
      | EmptyString => None
      | String c s' =>
          if cls c then
            match take_class n' cls s' with
            | Some (cap, rest) => Some (String c cap, rest)
            | None => None
            end
          else None
      end
  end.

Fixpoint exec (re : list atom) (s : string) : option (list string) :=
  match re with
  | [] => match s with EmptyString => Some [] | String _ _ => None end
  | OptChar c :: re' =>
      let greedy :=
        match s with
        | EmptyString => None
        | String c' s' => if Ascii.eqb c' c then exec re' s' else None
        end in
      match greedy with
      | Some caps => Some caps
      | None => exec re' s
      end
  | Capture n cls :: re' =>
      match take_class n cls s with
      | Some (cap, rest) =>
          match exec re' rest with
          | Some caps => Some (cap :: caps)
          | None => None
          end
      | None => None
      end
  end.

End Regex.

(** ** Numbers returned by [parseInt] *)

Inductive int_number : Type :=
| NotANumber
| Int (z : Z).

(** [Number::toString] of such a number, as a template literal applies it. *)
Definition int_toString (n : int_number) : string :=
  match n with
  | NotANumber => "NaN"
  | Int z => NilZero.string_of_int (Z.to_int z)
  end.

(** ** hexToRgb *)

Definition in_range (lo hi : N) (c : ascii) : bool :=
  (N.leb lo (N_of_ascii c) && N.leb (N_of_ascii c) hi)%bool.

(** [\d] *)
Definition digit_class (c : ascii) : bool := in_range 48 57 c.

(** [[a-f\d]] under the [i] flag: a character matches when its canonical
    (upper-case) form is that of a member, so [A]-[F] match too. *)
Definition hex_class (c : ascii) : bool :=
  (in_range 97 102 c || in_range 65 70 c || digit_class c)%bool.

(** The value of a character as a digit of [parseInt]: [0-9], then letters
    of either case from 10 on. *)
Definition digit_value (c : ascii) : option Z :=
  let n := Z.of_N (N_of_ascii c) in
  if digit_class c then Some (n - 48)
  else if in_range 97 122 c then Some (n - 97 + 10)
  else if in_range 65 90 c then Some (n - 65 + 10)
  else None.

(** The digits of [parseInt]: the longest prefix of digits below the radix;
    [None] when there is none. *)
Fixpoint parse_digits (radix : Z) (acc : option Z) (s : string) : option Z :=
  match s with
  | EmptyString => acc
  | String c s' =>
      match digit_value c with
      | Some d =>
          if d <? radix
          then parse_digits radix
                 (Some (match acc with Some a => a | None => 0 end * radix + d)) s'
          else acc
      | None => acc
      end
  end.

(** [parseInt(s, radix)].  The captures it is applied to hold characters of
    [hex_class] only, so the steps of [parseInt] that skip white space, read
    a sign or drop a [0x] prefix have nothing to do and are not modelled. *)
Definition parseInt (s : string) (radix : Z) : int_number :=
  match parse_digits radix None s with
  | Some z => Int z
  | None => NotANumber
  end.

Module Rgb.
Record t : Type := mk { r : int_number; g : int_number; b : int_number }.
End Rgb.

(** [/^#?([a-f\d])([a-f\d])([a-f\d])$/i] *)
Definition shorthandRegex : list Regex.atom :=
  [Regex.OptChar "#"; Regex.Capture 1 hex_class; Regex.Capture 1 hex_class;
   Regex.Capture 1 hex_class].

(** [/^#?([a-f\d]{2})([a-f\d]{2})([a-f\d]{2})$/i] *)
Definition fullRegex : list Regex.atom :=
  [Regex.OptChar "#"; Regex.Capture 2 hex_class; Regex.Capture 2 hex_class;
   Regex.Capture 2 hex_class].

(** [hex.replace(shorthandRegex, (m, r, g, b) => r + r + g + g + b + b)]: the
    pattern is anchored at both ends, so a match is the whole string. *)
Definition cleanHex (hex : string) : string :=
  match Regex.exec shorthandRegex hex with
  | Some [r; g; b] => (r ++ r ++ g ++ g ++ b ++ b)%string
  | _ => hex
  end.

Definition hexToRgb (hex : string) : option Rgb.t :=
  let cleanedHex := cleanHex hex in
  match Regex.exec fullRegex cleanedHex with
  | Some [c1; c2; c3] =>
      Some {| Rgb.r := parseInt c1 16; Rgb.g := parseInt c2 16;
              Rgb.b := parseInt c3 16 |}
  | _ => None
  end.

(** ** Data model *)

(** [type Position]: one arc of the input. *)
Module Position.
Record t : Type := mk {
  order : float;
  startLat : float;
  startLng : float;
  endLat : float;
  endLng : float;
  arcAlt : float;
  color : string
}.
End Position.

(** [type GlobeConfig]: every property is optional; [None] is an absent
    property. *)
Module GlobeConfig.
Record t : Type := mk {
  pointSize : option float;
  globeColor : option string;
  showAtmosphere : option bool;
  atmosphereColor : option string;
  atmosphereAltitude : option float;
  emissive : option string;
  emissiveIntensity : option float;
  shininess : option float;
  polygonColor : option string;
  ambientLight : option string;
  directionalLeftLight : option string;
  directionalTopLight : option string;
  pointLight : option string;
  arcTime : option float;
  arcLength : option float;
  rings : option float;
  maxRings : option float;
  initialPosition : option (float * float);
  autoRotate : option bool;
  autoRotateSpeed : option float
}.

(** The configuration that sets nothing. *)
Definition empty : t :=
  mk None None None None None None None None None None
     None None None None None None None None None None.
End GlobeConfig.

(** The object [defaultProps]: the built-in defaults overridden by the
    properties of [globeConfig]. *)
Module Props.
Record t : Type := mk {
  pointSize : float;
  atmosphereColor : string;
  showAtmosphere : bool;
  atmosphereAltitude : float;
  polygonColor : string;
  globeColor : string;
  emissive : string;
  emissiveIntensity : float;
  shininess : float;
  arcTime : float;
  arcLength : float;
  rings : float;
  maxRings : float;
  ambientLight : option string;
  directionalLeftLight : option string;
  directionalTopLight : option string;
  pointLight : option string;
  initialPosition : option (float * float);
  autoRotate : option bool;
  autoRotateSpeed : option float
}.
End Props.

(** [{ k: d, ...globeConfig }] at one key. *)
Definition spread {A : Type} (d : A) (o : option A) : A :=
  match o with
  | Some v => v
  | None => d
  end.

Definition defaultProps (globeConfig : GlobeConfig.t) : Props.t :=
  {| Props.pointSize := spread 1%float (GlobeConfig.pointSize globeConfig);
     Props.atmosphereColor := spread "#ffffff"%string (GlobeConfig.atmosphereColor globeConfig);
     Props.showAtmosphere := spread true (GlobeConfig.showAtmosphere globeConfig);
     Props.atmosphereAltitude := spread 0.1%float (GlobeConfig.atmosphereAltitude globeConfig);
     Props.polygonColor := spread "rgba(255,255,255,0.7)"%string (GlobeConfig.polygonColor globeConfig);
     Props.globeColor := spread "#1d072e"%string (GlobeConfig.globeColor globeConfig);
     Props.emissive := spread "#000000"%string (GlobeConfig.emissive globeConfig);
     Props.emissiveIntensity := spread 0.1%float (GlobeConfig.emissiveIntensity globeConfig);
     Props.shininess := spread 0.9%float (GlobeConfig.shininess globeConfig);
     Props.arcTime := spread 2000%float (GlobeConfig.arcTime globeConfig);
     Props.arcLength := spread 0.9%float (GlobeConfig.arcLength globeConfig);
     Props.rings := spread 1%float (GlobeConfig.rings globeConfig);
     Props.maxRings := spread 3%float (GlobeConfig.maxRings globeConfig);
     Props.ambientLight := GlobeConfig.ambientLight globeConfig;
     Props.directionalLeftLight := GlobeConfig.directionalLeftLight globeConfig;
     Props.directionalTopLight := GlobeConfig.directionalTopLight globeConfig;
     Props.pointLight := GlobeConfig.pointLight globeConfig;
     Props.initialPosition := GlobeConfig.initialPosition globeConfig;
     Props.autoRotate := GlobeConfig.autoRotate globeConfig;
     Props.autoRotateSpeed := GlobeConfig.autoRotateSpeed globeConfig |}.

(** An element of the state [globeData]: a point to render. *)
Module RenderPoint.
Record t : Type := mk {
  size : float;
  order : float;
  color : float -> string;
  lat : float;
  lng : float
}.
End RenderPoint.

(** The keys [["lat", "lng"]] and the property read [v[k]]. *)
Inductive coord_key : Type := Key_lat | Key_lng.

Definition get (v : RenderPoint.t) (k : coord_key) : float :=
  match k with
  | Key_lat => RenderPoint.lat v
  | Key_lng => RenderPoint.lng v
  end.

(** ** Array methods *)

Definition len {A : Type} (a : list A) : Z := Z.of_nat (List.length a).

Fixpoint findIndex_from {A : Type} (p : A -> bool) (a : list A) (i : Z) : Z :=
  match a with
  | [] => -1
  | x :: a' => if p x then i else findIndex_from p a' (i + 1)
  end.

(** [a.findIndex(p)]: the first index whose element satisfies [p], or -1. *)
Definition findIndex {A : Type} (p : A -> bool) (a : list A) : Z :=
  findIndex_from p a 0.

Fixpoint filter_from {A : Type} (p : A -> Z -> bool) (a : list A) (i : Z) : list A :=
  match a with
  | [] => []
  | x :: a' =>
      if p x i then x :: filter_from p a' (i + 1) else filter_from p a' (i + 1)
  end.

(** [a.filter((v, i) => p)]: the callback sees the element and its index. *)
Definition filter_i {A : Type} (p : A -> Z -> bool) (a : list A) : list A :=
  filter_from p a 0.

(** [a.every(p)] *)
Definition every {A : Type} (p : A -> bool) (a : list A) : bool := forallb p a.

(** [arr.indexOf(x)] on an array of integers. *)
Definition indexOf (arr : list Z) (x : Z) : Z := findIndex (Z.eqb x) arr.

(** [arr.includes(x)] on an array of integers. *)
Definition includes (arr : list Z) (x : Z) : bool := existsb (Z.eqb x) arr.

(** [a[i]]: [undefined], here [None], outside the array. *)
Definition array_get {A : Type} (a : list A) (i : Z) : option A :=
  if i <? 0 then None else nth_error a (Z.to_nat i).

(** ** Math *)

(** [Math.floor] of an exact value. *)
Definition Math_floor (q : Q) : Z := Qfloor q.

(** [Math.round]: the nearest integer, a tie going up. *)
Definition Math_round (q : Q) : Z := Qfloor (q + (1 # 2)).

(** The random source: the value of the [k]-th call of [Math.random()]. *)
Definition random_source : Type := nat -> Q.

(** What [Math.random] promises of its values. *)
Definition unit_interval (rnd : random_source) : Prop :=
  forall k, (0 <= rnd k)%Q /\ (rnd k < 1)%Q.

(** ** The component [Globe] *)

(** A property of a layer of the rendering library is set to a constant or
    to a function of the datum. *)
Inductive accessor (D A : Type) : Type :=
| Const (v : A)
| Fn (f : D -> A).
Arguments Const {D A} v.
Arguments Fn {D A} f.

Definition access {D A : Type} (acc : accessor D A) (d : D) : A :=
  match acc with
  | Const v => v
  | Fn f => f d
  end.

(** The instance of the rendering library behind [globeRef.current] is opaque:
    it is known by the calls of its chained setters, the latest first.  The
    stroke accessor reads [Math.random()]: its function takes the value of
    that call as a second argument. *)
Inductive call : Type :=
| arcsData (d : list Position.t)
| arcStartLat (f : accessor Position.t float)
| arcStartLng (f : accessor Position.t float)
| arcEndLat (f : accessor Position.t float)
| arcEndLng (f : accessor Position.t float)
| arcColor (f : accessor Position.t string)
| arcAltitude (f : accessor Position.t float)
| arcStroke (f : accessor Position.t (Q -> option float))
| arcDashLength (f : accessor Position.t float)
| arcDashInitialGap (f : accessor Position.t float)
| arcDashGap (f : accessor Position.t float)
| arcDashAnimateTime (f : accessor Position.t float)
| pointsData (d : list RenderPoint.t)
| pointsMerge (v : bool)
| pointAltitude (f : accessor RenderPoint.t float)
| pointRadius (f : accessor RenderPoint.t float)
| ringsData (d : list RenderPoint.t)
| ringColor (f : accessor RenderPoint.t (float -> string))
| ringMaxRadius (f : accessor RenderPoint.t float)
| ringPropagationSpeed (f : accessor RenderPoint.t float)
| ringRepeatPeriod (f : accessor RenderPoint.t float).

Definition ThreeGlobe : Type := list call.

(** [g.setter(v)]: the call is recorded and the instance returned for chaining. *)
Definition chain (g : ThreeGlobe) (c : call) : ThreeGlobe := c :: g.
Infix "|>" := chain (at level 45, left associativity).

(** The value a property holds: the argument of the latest call that set it. *)
Fixpoint configured {T : Type} (sel : call -> option T) (g : ThreeGlobe) : option T :=
  match g with
  | [] => None
  | c :: g' =>
      match sel c with
      | Some v => Some v
      | None => configured sel g'
      end
  end.

Definition the_arcsData (c : call) :=
  match c with arcsData d => Some d | _ => None end.
Definition the_arcStroke (c : call) :=
  match c with arcStroke f => Some f | _ => None end.
Definition the_arcDashLength (c : call) :=
  match c with arcDashLength f => Some f | _ => None end.
Definition the_arcDashInitialGap (c : call) :=
  match c with arcDashInitialGap f => Some f | _ => None end.
Definition the_arcDashGap (c : call) :=
  match c with arcDashGap f => Some f | _ => None end.
Definition the_arcDashAnimateTime (c : call) :=
  match c with arcDashAnimateTime f => Some f | _ => None end.
Definition the_pointsData (c : call) :=
  match c with pointsData d => Some d | _ => None end.
Definition the_ringsData (c : call) :=
  match c with ringsData d => Some d | _ => None end.

Definition RING_PROPAGATION_SPEED : float := 3%float.

(** The state of a mounted component: [globeRef.current] and [globeData],
    each [null] at first. *)
Record GlobeState : Type := mkState {
  globeRef : option ThreeGlobe;
  globeData : option (list RenderPoint.t)
}.

(** [setGlobeData(v)] *)
Definition setGlobeData (v : list RenderPoint.t) (st : GlobeState) : GlobeState :=
  {| globeRef := globeRef st; globeData := Some v |}.

(** The scrutinee of the filter in [_buildData]:
    [["lat", "lng"].every((k) => v2[k] === v[k])]. *)
Definition same_lat_lng (v2 v : RenderPoint.t) : bool :=
  every (fun k => PrimFloat.eqb (get v2 k) (get v k)) [Key_lat; Key_lng].

Section Component.

(** [Number::toString] on a binary64 value is the host's; the development is
    parametric in it. *)
Variable Number_toString : float -> string.

Variable globeConfig : GlobeConfig.t.
Variable data : list Position.t.

(** The two objects pushed for an arc whose colour decoded to [rgb]. *)
Definition pushed (arc : Position.t) (rgb : Rgb.t) : list RenderPoint.t :=
  [ {| RenderPoint.size := Props.pointSize (defaultProps globeConfig);
       RenderPoint.order := Position.order arc;
       RenderPoint.color := fun t =>
         ("rgba(" ++ int_toString (Rgb.r rgb) ++ ", " ++ int_toString (Rgb.g rgb)
            ++ ", " ++ int_toString (Rgb.b rgb) ++ ", "
            ++ Number_toString (1 - t)%float ++ ")")%string;
       RenderPoint.lat := Position.startLat arc;
       RenderPoint.lng := Position.startLng arc |};
    {| RenderPoint.size := Props.pointSize (defaultProps globeConfig);
       RenderPoint.order := Position.order arc;
       RenderPoint.color := fun t =>
         ("rgba(" ++ int_toString (Rgb.r rgb) ++ ", " ++ int_toString (Rgb.g rgb)
            ++ ", " ++ int_toString (Rgb.b rgb) ++ ", "
            ++ Number_toString (1 - t)%float ++ ")")%string;
       RenderPoint.lat := Position.endLat arc;
       RenderPoint.lng := Position.endLng arc |} ].

(** One turn of the [for] loop of [_buildData], on the array [points] so
    far. *)
Definition _buildData_body (points : list RenderPoint.t) (arc : Position.t)
  : list RenderPoint.t :=
  let rgb := hexToRgb (Position.color arc) in
  match rgb with
  | Some rgb => points ++ pushed arc rgb
  | None => points
  end.

(** The [for] loop of [_buildData]: the array [points] after it. *)
Definition _buildData_points : list RenderPoint.t :=
  let arcs := data in
  fold_left _buildData_body arcs [].

(** The array [filteredPoints] of [_buildData]. *)
Definition _buildData_filteredPoints : list RenderPoint.t :=
  let points := _buildData_points in
  filter_i
    (fun v i => findIndex (fun v2 => same_lat_lng v2 v) points =? i)
    points.

Definition _buildData (st : GlobeState) : GlobeState :=
  setGlobeData _buildData_filteredPoints st.

(** The function given to [arcStroke], [u] being the value of its call of
    [Math.random()]; an index outside the array reads [undefined], [None]. *)
Definition stroke (e : Position.t) (u : Q) : option float :=
  array_get [0.32%float; 0.28%float; 0.3%float] (Math_round (u * 2)).

(** [startAnimation], on an instance [g] and points [gd] that passed its
    guard. *)
Definition startAnimation_on (g : ThreeGlobe) (gd : list RenderPoint.t) : ThreeGlobe :=
  let g :=
    g |> arcsData data
      |> arcStartLat (Fn Position.startLat)
      |> arcStartLng (Fn Position.startLng)
      |> arcEndLat (Fn Position.endLat)
      |> arcEndLng (Fn Position.endLng)
      |> arcColor (Fn Position.color)
      |> arcAltitude (Fn Position.arcAlt)
      |> arcStroke (Fn stroke)
      |> arcDashLength (Const (Props.arcLength (defaultProps globeConfig)))
      |> arcDashInitialGap (Fn (fun e => (Position.order e * 1)%float))
      |> arcDashGap (Const 15%float)
      |> arcDashAnimateTime (Fn (fun e => Props.arcTime (defaultProps globeConfig))) in
  let g :=
    g |> pointsData gd
      |> ringColor (Fn RenderPoint.color)
      |> pointsMerge true
      |> pointAltitude (Const 0%float)
      |> pointRadius (Const 2%float) in
  g |> ringsData []
    |> ringColor (Fn RenderPoint.color)
    |> ringMaxRadius (Const (Props.maxRings (defaultProps globeConfig)))
    |> ringPropagationSpeed (Const RING_PROPAGATION_SPEED)
    |> ringRepeatPeriod
         (Const ((Props.arcTime (defaultProps globeConfig)
                  * Props.arcLength (defaultProps globeConfig))
                 / Props.rings (defaultProps globeConfig))%float).

(** [startAnimation]: nothing happens unless [globeRef.current] and
    [globeData] are both set. *)
Definition startAnimation (st : GlobeState) : GlobeState :=
  match globeRef st, globeData st with
  | Some g, Some gd =>
      {| globeRef := Some (startAnimation_on g gd); globeData := Some gd |}
  | _, _ => st
  end.

End Component.

(** ** genRandomNumbers *)

(** The [while] loop of [genRandomNumbers]: [arr] is the array so far and
    [k] the number of calls of [Math.random()] made before.  The product
    [Math.random() * (max - min)] is taken exactly. *)
Fixpoint genRandomNumbers_loop (fuel : nat) (rnd : random_source)
    (min max count : Z) (arr : list Z) (k : nat) : option (list Z * nat) :=
  if len arr <? count then
    match fuel with
    | O => None
    | S fuel' =>
        let r := Math_floor (rnd k * inject_Z (max - min)) + min in
        if indexOf arr r =? -1
        then genRandomNumbers_loop fuel' rnd min max count (arr ++ [r]) (S k)
        else genRandomNumbers_loop fuel' rnd min max count arr (S k)
    end
  else Some (arr, k).

Definition genRandomNumbers (fuel : nat) (rnd : random_source)
    (min max count : Z) (k : nat) : option (list Z * nat) :=
  genRandomNumbers_loop fuel rnd min max count [] k.

(** ** The ring interval effect *)

(** What a tick reads and writes: the variable [numbersOfRings] of the
    effect, the instance behind [globeRef.current], and the number of calls
    of [Math.random()] made so far. *)
Record TickState : Type := mkTick {
  numbersOfRings : list Z;
  instance : option ThreeGlobe;
  cursor : nat
}.

(** The third argument of the call of [genRandomNumbers]:
    [Math.floor((data.length * 4) / 5)]. *)
Definition ring_count (data : list Position.t) : Z :=
  Math_floor (inject_Z (len data * 4) / inject_Z 5).

(** The callback of [setInterval]; [globeData] and [data] are the values the
    effect closed over. *)
Definition ringTick (fuel : nat) (rnd : random_source)
    (globeData : option (list RenderPoint.t)) (data : list Position.t)
    (s : TickState) : option TickState :=
  match instance s, globeData with
  | Some g, Some gd =>
      if len data =? 0 then Some s
      else
        match genRandomNumbers fuel rnd 0 (len data) (ring_count data) (cursor s) with
        | Some (nums, k') =>
            Some {| numbersOfRings := nums;
                    instance :=
                      Some (g |> ringsData (filter_i (fun d i => includes nums i) gd));
                    cursor := k' |}
        | None => None
        end
  | _, _ => Some s
  end.

(** The body of the effect: the delay of the interval it sets, or [None]
    when it returns before setting one. *)
Definition ringEffect (st : GlobeState) (data : list Position.t) : option Z :=
  match globeRef st, globeData st with
  | Some _, Some _ => if len data =? 0 then None else Some 2000
  | _, _ => None
  end.

(** ** Definitions on the side of the specification *)

(** Manual parsing of one hexadecimal digit. *)
Definition hex_value (c : ascii) : Z :=
  match c with
  | "0" => 0 | "1" => 1 | "2" => 2 | "3" => 3 | "4" => 4
  | "5" => 5 | "6" => 6 | "7" => 7 | "8" => 8 | "9" => 9
  | "a" | "A" => 10 | "b" | "B" => 11 | "c" | "C" => 12
  | "d" | "D" => 13 | "e" | "E" => 14 | "f" | "F" => 15
  | _ => 0
  end%char.

Definition is_hex_digit (c : ascii) : bool :=
  existsb (Ascii.eqb c)
    (list_ascii_of_string "0123456789abcdefABCDEF").

(** Six hexadecimal digits, with or without a leading [#]. *)
Definition six_digit (s : string) : Prop :=
  exists h1 h2 h3 h4 h5 h6 : ascii,
    forallb is_hex_digit [h1; h2; h3; h4; h5; h6] = true /\
    let body := string_of_list_ascii [h1; h2; h3; h4; h5; h6] in
    s = body \/ s = String "#" body.

(** Three hexadecimal digits, with or without a leading [#]. *)
Definition three_digit (s : string) : Prop :=
  exists h1 h2 h3 : ascii,
    forallb is_hex_digit [h1; h2; h3] = true /\
    let body := string_of_list_ascii [h1; h2; h3] in
    s = body \/ s = String "#" body.

(** The byte written by two hexadecimal digits. *)
Definition byte_of (h l : ascii) : int_number := Int (16 * hex_value h + hex_value l).

(** A number that is a number: it equals itself under [===]. *)
Definition is_number (x : float) : bool := PrimFloat.eqb x x.

(** Deduplication as the specification words it: going through the list in
    order, a point is kept unless a point kept before has the same pair. *)
Fixpoint keep_first (seen l : list RenderPoint.t) : list RenderPoint.t :=
  match l with
  | [] => []
  | p :: l' =>
      if existsb (fun q => same_lat_lng q p) seen
      then keep_first seen l'
      else p :: keep_first (seen ++ [p]) l'
  end.


(** [Number::toString] where its result is plain: NaN, the infinities, the
    zeros and the integers below 10^21 in magnitude.  The other numbers
    print their shortest round-trip digits, which are not computed here:
    the empty string stands for them.  It instantiates the parameter
    [Number_toString] in the examples. *)
Definition integral_toString (x : float) : string :=
  match Prim2SF x with
  | S754_zero _ => "0"
  | S754_nan => "NaN"
  | S754_infinity s => if s then "-Infinity" else "Infinity"
  | S754_finite s m e =>
      let digits (v : Z) :=
        if v <? 10 ^ 21
        then ((if s then "-" else "") ++ NilZero.string_of_int (Z.to_int v))%string
        else ""%string in
      if 0 <=? e then digits (Z.pos m * 2 ^ e)
      else if Z.pos m mod 2 ^ (- e) =? 0 then digits (Z.pos m / 2 ^ (- e))
      else ""%string
  end.

(** The random source that walks through the [n] outcomes in turn. *)
Definition round_robin (n : Z) : random_source :=
  fun k => (Z.of_nat k mod n) # Z.to_pos n.

(** The arcs of the demonstration page ([mockData]). *)
Definition mockData : list Position.t :=
  [ Position.mk 1 40.7128 (-74.0060) 34.0522 (-118.2437) 0.5 "#ff0000";
    Position.mk 2 51.5074 (-0.1278) 35.6895 139.6917 0.7 "#00ff00";
    Position.mk 3 (-33.8688) 151.2093 39.9042 116.4074 0.6 "#0000ff";
    Position.mk 4 34.0522 (-118.2437) 51.5074 (-0.1278) 0.5 "#ffff00";
    Position.mk 5 30.0444 31.2357 28.2307 32.3942 0.3 "#FFA500";
    Position.mk 6 31.0461 29.9553 29.9782 32.8878 0.4 "#8A2BE2" ]%float.

(** Its configuration ([mockGlobeConfig]). *)
Definition mockGlobeConfig : GlobeConfig.t :=
  {| GlobeConfig.pointSize := Some 1.5%float;
     GlobeConfig.globeColor := Some "#1d072e"%string;
     GlobeConfig.showAtmosphere := Some true;
     GlobeConfig.atmosphereColor := Some "#ffffff"%string;
     GlobeConfig.atmosphereAltitude := Some 0.15%float;
     GlobeConfig.emissive := Some "#000000"%string;
     GlobeConfig.emissiveIntensity := Some 0.1%float;
     GlobeConfig.shininess := Some 0.9%float;
     GlobeConfig.polygonColor := Some "rgba(255,255,255,0.7)"%string;
     GlobeConfig.ambientLight := Some "#aaaaaa"%string;
     GlobeConfig.directionalLeftLight := Some "#00b1ff"%string;
     GlobeConfig.directionalTopLight := Some "#ffffff"%string;
     GlobeConfig.pointLight := Some "#ffffff"%string;
     GlobeConfig.arcTime := Some 1500%float;
     GlobeConfig.arcLength := Some 0.7%float;
     GlobeConfig.rings := Some 2%float;
     GlobeConfig.maxRings := Some 5%float;
     GlobeConfig.initialPosition := None;
     GlobeConfig.autoRotate := Some true;
     GlobeConfig.autoRotateSpeed := Some 0.5%float |}.

(** A pair [(lat, lng)]. *)
Definition coord : Type := (float * float)%type.

Definition coord_of (p : RenderPoint.t) : coord :=
  (RenderPoint.lat p, RenderPoint.lng p).

(** Exact equality of two pairs: [===] on each component. *)
Definition same_coord (c d : coord) : bool :=
  (PrimFloat.eqb (fst c) (fst d) && PrimFloat.eqb (snd c) (snd d))%bool.

(** The endpoints of the arcs in emission order: of each arc in turn, the
    start and then the end. *)
Definition endpoints (arcs : list Position.t) : list coord :=
  flat_map
    (fun a => [ (Position.startLat a, Position.startLng a);
                (Position.endLat a, Position.endLng a) ])
    arcs.

(** No two pairs of the list, at different positions, are equal. *)
Fixpoint pairwise_distinct (l : list coord) : bool :=
  match l with
  | [] => true
  | c :: l' => (negb (existsb (same_coord c) l') && pairwise_distinct l')%bool
  end.

(** The four coordinates of the arc are numbers. *)
Definition numeric (a : Position.t) : bool :=
  forallb is_number
    [Position.startLat a; Position.startLng a; Position.endLat a; Position.endLng a].

(** The colour of the arc decodes. *)
Definition decodable (a : Position.t) : bool :=
  match hexToRgb (Position.color a) with
  | Some _ => true
  | None => false
  end.

(** Two values are equal under [===] when both are zeros, both the same
    infinity, or the same finite value. *)
Definition sf_same (f1 f2 : spec_float) : Prop :=
  match f1, f2 with
  | S754_zero _, S754_zero _ => True
  | S754_infinity s1, S754_infinity s2 => s1 = s2
  | S754_finite s1 m1 e1, S754_finite s2 m2 e2 => s1 = s2 /\ m1 = m2 /\ e1 = e2
  | _, _ => False
  end.

(** A byte. *)
Definition is_byte (n : int_number) : Prop :=
  exists z : Z, n = Int z /\ 0 <= z <= 255.

(** The points of [l] whose position is among [indices], in the order of
    [l]. *)
Definition points_at (indices : list Z) (l : list RenderPoint.t) : list RenderPoint.t :=
  flat_map
    (fun i =>
       match nth_error l i with
       | Some p => if includes indices (Z.of_nat i) then [p] else []
       | None => []
       end)
    (seq 0 (List.length l)).

(** The numeric properties of the merged configuration. *)
Definition numeric_props (p : Props.t) : list float :=
  [Props.pointSize p; Props.atmosphereAltitude p; Props.emissiveIntensity p;
   Props.shininess p; Props.arcTime p; Props.arcLength p; Props.rings p;
   Props.maxRings p]
  ++ match Props.autoRotateSpeed p with Some v => [v] | None => [] end
  ++ match Props.initialPosition p with Some (a, b) => [a; b] | None => [] end.

(** The position in the stroke array that the value [u] of [Math.random()]
    selects. *)
Definition stroke_index (u : Q) : Z := Math_round (u * 2).

(** A source that always answers the same value. *)
Definition constant_source (u : Q) : random_source := fun _ => u.



(** ** Further definitions on the side of the specification *)

Fixpoint map_string (f : ascii -> ascii) (s : string) : string :=
  match s with
  | EmptyString => EmptyString
  | String c s' => String (f c) (map_string f s')
  end.

(** The upper-case and lower-case forms of a letter of [a]-[z], [A]-[Z];
    another character is left as it is. *)
Definition upcase (c : ascii) : ascii :=
  if in_range 97 122 c then ascii_of_N (N_of_ascii c - 32) else c.

Definition downcase (c : ascii) : ascii :=
  if in_range 65 90 c then ascii_of_N (N_of_ascii c + 32) else c.

(** The string begins with [#]. *)
Definition starts_with_hash (s : string) : bool :=
  match s with
  | String c _ => Ascii.eqb c "#"
  | EmptyString => false
  end.

(** The decimal numeral of an integer from 0 to 255, digit by digit. *)
Definition decimal_digit (d : Z) : ascii := ascii_of_N (48 + Z.to_N d).

Definition byte_decimal (z : Z) : string :=
  if z <? 10 then String (decimal_digit z) EmptyString
  else if z <? 100
       then String (decimal_digit (z / 10)) (String (decimal_digit (z mod 10)) EmptyString)
       else String (decimal_digit (z / 100))
              (String (decimal_digit (z / 10 mod 10))
                 (String (decimal_digit (z mod 10)) EmptyString)).


(** ** genRandomNumbers on binary64 numbers

    The function once more, with every number a binary64 value and every
    operation the one of the code: the comparison [arr.length < count], the
    product, [Math.floor], the sum and the [===] of [indexOf]. *)

(** The binary64 value of a non-negative integer below 2^63 (exact below
    2^53). *)
Definition float_of_nonneg (z : Z) : float := PrimFloat.of_uint63 (Uint63.of_Z z).

(** [Math.floor] on a binary64 value: a NaN, an infinity, a zero and a value
    without fractional bits are returned as they are. *)
Definition Math_floor_f64 (x : float) : float :=
  match Prim2SF x with
  | S754_finite s m e =>
      if 0 <=? e then x
      else
        let d := 2 ^ (- e) in
        let q := Z.pos m / d in
        if s then
          PrimFloat.opp (float_of_nonneg (if Z.pos m mod d =? 0 then q else q + 1))
        else float_of_nonneg q
  | _ => x
  end.

(** [arr.length] *)
Definition length_f64 (arr : list float) : float := float_of_nonneg (len arr).

(** [arr.indexOf(x)]: the elements are compared with [===]. *)
Definition indexOf_f64 (arr : list float) (x : float) : Z :=
  findIndex (fun y => PrimFloat.eqb y x) arr.

Fixpoint genRandomNumbers_f64_loop (fuel : nat) (rnd : nat -> float)
    (min max count : float) (arr : list float) (k : nat)
  : option (list float * nat) :=
  if (length_f64 arr <? count)%float then
    match fuel with
    | O => None
    | S fuel' =>
        let r := (Math_floor_f64 (rnd k * (max - min)) + min)%float in
        if indexOf_f64 arr r =? -1
        then genRandomNumbers_f64_loop fuel' rnd min max count (arr ++ [r]) (S k)
        else genRandomNumbers_f64_loop fuel' rnd min max count arr (S k)
    end
  else Some (arr, k).

Definition genRandomNumbers_f64 (fuel : nat) (rnd : nat -> float)
    (min max count : float) (k : nat) : option (list float * nat) :=
  genRandomNumbers_f64_loop fuel rnd min max count [] k.

(** The values that [n] calls of [Math.random()] give from the [k]-th on,
    each scaled to the range. *)
Definition draws_f64 (rnd : nat -> float) (min max : float) (k n : nat) : list float :=
  map (fun j => (Math_floor_f64 (rnd j * (max - min)) + min)%float) (seq k n).

(** The values of [l] that equal ([===]) none met before, added to [arr] in
    the order they come. *)
Fixpoint push_new_f64 (arr l : list float) : list float :=
  match l with
  | [] => arr
  | x :: l' =>
      if existsb (fun y => PrimFloat.eqb y x) arr
      then push_new_f64 arr l'
      else push_new_f64 (arr ++ [x]) l'
  end.

(** The state of a tick that has just been set up on the instance of [st]. *)
Definition tick_of (st : GlobeState) (k : nat) : TickState :=
  {| numbersOfRings := []; instance := globeRef st; cursor := k |}.

(** * Properties *)

(** ** The matcher *)

Lemma take_class_sound (n : nat) (cls : ascii -> bool) :
  forall s cap rest,
    Regex.take_class n cls s = Some (cap, rest) ->
    s = (cap ++ rest)%string /\ String.length cap = n /\
    forallb cls (list_ascii_of_string cap) = true.
Proof.
  induction n as [|n IH]; intros s cap rest H; simpl in H.
  - inversion H; subst. repeat split.
  - destruct s as [|c s']; [discriminate|].
    destruct (cls c) eqn:Hc; [|discriminate].
    destruct (Regex.take_class n cls s') as [[cap' rest']|] eqn:Ht; [|discriminate].
    inversion H; subst. destruct (IH _ _ _ Ht) as (-> & <- & Hall).
    simpl. rewrite Hc, Hall. repeat split.
Qed.

Lemma append_empty_r (s : string) : (s ++ "")%string = s.
Proof. induction s as [|c s IH]; simpl; [reflexivity | now rewrite IH]. Qed.

Lemma exec_opt_char (c : ascii) (re : list Regex.atom) (s : string) (caps : list string) :
  Regex.exec (Regex.OptChar c :: re) s = Some caps ->
  Regex.exec re s = Some caps \/
  exists s', s = String c s' /\ Regex.exec re s' = Some caps.
Proof.
  simpl. destruct s as [|c' s'].
  - auto.
  - destruct (Ascii.eqb c' c) eqn:Hc.
    + apply Ascii.eqb_eq in Hc. subst c'.
      destruct (Regex.exec re s') as [caps'|] eqn:He.
      * intros H. inversion H; subst. right. eauto.
      * auto.
    + auto.
Qed.

Lemma exec_three_captures (n : nat) (cls : ascii -> bool) (s : string) (caps : list string) :
  Regex.exec [Regex.Capture n cls; Regex.Capture n cls; Regex.Capture n cls] s = Some caps ->
  exists c1 c2 c3,
    caps = [c1; c2; c3] /\ s = (c1 ++ c2 ++ c3)%string /\
    (String.length c1 = n /\ String.length c2 = n /\ String.length c3 = n) /\
    forallb cls (list_ascii_of_string c1 ++ list_ascii_of_string c2
                 ++ list_ascii_of_string c3) = true.
Proof.
  simpl.
  destruct (Regex.take_class n cls s) as [[c1 r1]|] eqn:H1; [|discriminate].
  destruct (Regex.take_class n cls r1) as [[c2 r2]|] eqn:H2; [|discriminate].
  destruct (Regex.take_class n cls r2) as [[c3 r3]|] eqn:H3; [|discriminate].
  destruct r3; [|discriminate].
  intros H. inversion H; subst. exists c1, c2, c3.
  apply take_class_sound in H1, H2, H3.
  destruct H1 as (-> & L1 & A1), H2 as (-> & L2 & A2), H3 as (-> & L3 & A3).
  rewrite !forallb_app, A1, A2, A3.
  rewrite append_empty_r. repeat split; auto.
Qed.

(** ** Characters *)

Lemma is_hex_digit_class (c : ascii) : is_hex_digit c = hex_class c.
Proof.
  destruct c as [[] [] [] [] [] [] [] []]; reflexivity.
Qed.

Lemma hex_digit_value (c : ascii) :
  hex_class c = true ->
  digit_value c = Some (hex_value c) /\ (hex_value c <? 16) = true.
Proof.
  destruct c as [[] [] [] [] [] [] [] []];
    intros H; try discriminate H; split; reflexivity.
Qed.

Lemma hex_class_not_hash (c : ascii) : hex_class c = true -> Ascii.eqb c "#" = false.
Proof.
  destruct c as [[] [] [] [] [] [] [] []];
    intros H; try discriminate H; reflexivity.
Qed.

Lemma parseInt_byte (h l : ascii) :
  hex_class h = true -> hex_class l = true ->
  parseInt (String h (String l EmptyString)) 16 = byte_of h l.
Proof.
  intros Hh Hl.
  destruct (hex_digit_value h Hh) as [Vh Bh], (hex_digit_value l Hl) as [Vl Bl].
  unfold parseInt. simpl. rewrite Vh, Bh, Vl, Bl. unfold byte_of. f_equal. lia.
Qed.

(** ** hexToRgb *)

Lemma exec_three_digits (h1 h2 h3 : ascii) (rest : string) :
  hex_class h1 = true -> hex_class h2 = true -> hex_class h3 = true ->
  Regex.exec [Regex.Capture 1 hex_class; Regex.Capture 1 hex_class;
              Regex.Capture 1 hex_class]
    (String h1 (String h2 (String h3 rest))) =
  match rest with
  | EmptyString =>
      Some [String h1 EmptyString; String h2 EmptyString; String h3 EmptyString]
  | String _ _ => None
  end.
Proof.
  intros H1 H2 H3. simpl. rewrite H1, H2, H3. destruct rest; reflexivity.
Qed.

Lemma exec_six_digits (h1 h2 h3 h4 h5 h6 : ascii) (rest : string) :
  forallb hex_class [h1; h2; h3; h4; h5; h6] = true ->
  Regex.exec [Regex.Capture 2 hex_class; Regex.Capture 2 hex_class;
              Regex.Capture 2 hex_class]
    (String h1 (String h2 (String h3 (String h4 (String h5 (String h6 rest)))))) =
  match rest with
  | EmptyString =>
      Some [String h1 (String h2 EmptyString); String h3 (String h4 EmptyString);
            String h5 (String h6 EmptyString)]
  | String _ _ => None
  end.
Proof.
  intros H. simpl in H. repeat (apply andb_prop in H; destruct H as [?H H]).
  simpl. rewrite H0, H1, H2, H3, H4, H5. destruct rest; reflexivity.
Qed.

Lemma exec_hash_first (re : list Regex.atom) (c : ascii) (s : string) :
  hex_class c = true ->
  Regex.exec (Regex.OptChar "#" :: re) (String c s) = Regex.exec re (String c s).
Proof.
  intros H. simpl. now rewrite (hex_class_not_hash c H).
Qed.

Lemma exec_hash_prefix (n : nat) (re : list Regex.atom) (s : string) :
  Regex.exec (Regex.OptChar "#" :: Regex.Capture (S n) hex_class :: re) (String "#" s) =
  Regex.exec (Regex.Capture (S n) hex_class :: re) s.
Proof.
  simpl. destruct (match Regex.take_class (S n) hex_class s with
                   | Some _ => _ | None => _ end); reflexivity.
Qed.

Ltac split_forallb H :=
  simpl in H; rewrite ?is_hex_digit_class in H;
  repeat (apply andb_prop in H; destruct H as [?H H]); clear H.

Ltac hex_classes :=
  simpl; rewrite ?is_hex_digit_class;
  repeat match goal with
         | H : hex_class ?c = true |- context [hex_class ?c] => rewrite H
         end;
  reflexivity.

Lemma hexToRgb_six (h1 h2 h3 h4 h5 h6 : ascii) (hex : string) :
  forallb is_hex_digit [h1; h2; h3; h4; h5; h6] = true ->
  let body := string_of_list_ascii [h1; h2; h3; h4; h5; h6] in
  hex = body \/ hex = String "#" body ->
  cleanHex hex = hex /\
  hexToRgb hex = Some (Rgb.mk (byte_of h1 h2) (byte_of h3 h4) (byte_of h5 h6)).
Proof.
  intros H body Hhex.
  pose proof H as Hall. split_forallb Hall.
  assert (Hclean : cleanHex hex = hex).
  { unfold cleanHex, shorthandRegex.
    destruct Hhex as [-> | ->]; subst body; cbn [string_of_list_ascii].
    - rewrite exec_hash_first, exec_three_digits by assumption. reflexivity.
    - rewrite exec_hash_prefix, exec_three_digits by assumption. reflexivity. }
  split; [exact Hclean|].
  unfold hexToRgb. rewrite Hclean. unfold fullRegex.
  destruct Hhex as [-> | ->]; subst body; cbn [string_of_list_ascii].
  - rewrite exec_hash_first, exec_six_digits by (assumption || hex_classes).
    now rewrite !parseInt_byte by assumption.
  - rewrite exec_hash_prefix, exec_six_digits by hex_classes.
    now rewrite !parseInt_byte by assumption.
Qed.

Lemma hexToRgb_three (h1 h2 h3 : ascii) (hex : string) :
  forallb is_hex_digit [h1; h2; h3] = true ->
  let body := string_of_list_ascii [h1; h2; h3] in
  hex = body \/ hex = String "#" body ->
  cleanHex hex = string_of_list_ascii [h1; h1; h2; h2; h3; h3] /\
  hexToRgb hex = Some (Rgb.mk (byte_of h1 h1) (byte_of h2 h2) (byte_of h3 h3)).
Proof.
  intros H body Hhex.
  pose proof H as Hall. split_forallb Hall.
  assert (Hclean : cleanHex hex = string_of_list_ascii [h1; h1; h2; h2; h3; h3]).
  { unfold cleanHex, shorthandRegex.
    destruct Hhex as [-> | ->]; subst body; cbn [string_of_list_ascii].
    - rewrite exec_hash_first, exec_three_digits by assumption. reflexivity.
    - rewrite exec_hash_prefix, exec_three_digits by assumption. reflexivity. }
  split; [exact Hclean|].
  unfold hexToRgb. rewrite Hclean. unfold fullRegex. cbn [string_of_list_ascii].
  rewrite exec_hash_first, exec_six_digits by (assumption || hex_classes).
  now rewrite !parseInt_byte by assumption.
Qed.

Lemma one_char (s : string) : String.length s = 1%nat -> exists c, s = String c EmptyString.
Proof.
  destruct s as [|c [|]]; try discriminate. eauto.
Qed.

Lemma two_chars (s : string) :
  String.length s = 2%nat -> exists c d, s = String c (String d EmptyString).
Proof.
  destruct s as [|c [|d [|]]]; try discriminate. eauto.
Qed.

Lemma shorthand_match (hex : string) (caps : list string) :
  Regex.exec shorthandRegex hex = Some caps ->
  three_digit hex /\ exists r g b, caps = [r; g; b].
Proof.
  intros H. apply exec_opt_char in H.
  assert (G : forall s, Regex.exec [Regex.Capture 1 hex_class; Regex.Capture 1 hex_class;
                                    Regex.Capture 1 hex_class] s = Some caps ->
              (exists h1 h2 h3, forallb is_hex_digit [h1; h2; h3] = true /\
                                s = string_of_list_ascii [h1; h2; h3]) /\
              exists r g b, caps = [r; g; b]).
  { intros s Hs. apply exec_three_captures in Hs.
    destruct Hs as (c1 & c2 & c3 & -> & -> & (L1 & L2 & L3) & Hall).
    apply one_char in L1, L2, L3.
    destruct L1 as [h1 ->], L2 as [h2 ->], L3 as [h3 ->].
    split; [|eauto]. exists h1, h2, h3. split; [|reflexivity].
    simpl in Hall |- *. now rewrite !is_hex_digit_class. }
  destruct H as [H | (s' & -> & H)]; apply G in H;
    destruct H as [(h1 & h2 & h3 & Hd & ->) Hc]; (split; [|exact Hc]);
    exists h1, h2, h3; (split; [exact Hd|]); simpl; auto.
Qed.

Lemma full_match (hex : string) (caps : list string) :
  Regex.exec fullRegex hex = Some caps -> six_digit hex.
Proof.
  intros H. apply exec_opt_char in H.
  assert (G : forall s, Regex.exec [Regex.Capture 2 hex_class; Regex.Capture 2 hex_class;
                                    Regex.Capture 2 hex_class] s = Some caps ->
              exists h1 h2 h3 h4 h5 h6,
                forallb is_hex_digit [h1; h2; h3; h4; h5; h6] = true /\
                s = string_of_list_ascii [h1; h2; h3; h4; h5; h6]).
  { intros s Hs. apply exec_three_captures in Hs.
    destruct Hs as (c1 & c2 & c3 & -> & -> & (L1 & L2 & L3) & Hall).
    apply two_chars in L1, L2, L3.
    destruct L1 as (h1 & h2 & ->), L2 as (h3 & h4 & ->), L3 as (h5 & h6 & ->).
    exists h1, h2, h3, h4, h5, h6. split; [|reflexivity].
    simpl in Hall |- *. now rewrite !is_hex_digit_class. }
  destruct H as [H | (s' & -> & H)]; apply G in H;
    destruct H as (h1 & h2 & h3 & h4 & h5 & h6 & Hd & ->);
    exists h1, h2, h3, h4, h5, h6; (split; [exact Hd|]); simpl; auto.
Qed.

Lemma hexToRgb_some (hex : string) (rgb : Rgb.t) :
  hexToRgb hex = Some rgb -> six_digit hex \/ three_digit hex.
Proof.
  unfold hexToRgb, cleanHex.
  destruct (Regex.exec shorthandRegex hex) as [caps|] eqn:Hs.
  - intros _. right. now apply shorthand_match in Hs.
  - destruct (Regex.exec fullRegex hex) as [caps|] eqn:Hf; [|discriminate].
    intros _. left. now apply full_match in Hf.
Qed.

(** C3. For every string: six hexadecimal digits, with or without a leading
    [#] and in either case, decode to the three bytes that their pairs of
    digits write; three such digits are first expanded by doubling each and
    then decode the same way; a string of neither shape gives [null]. *)
Theorem hexToRgb_decodes (hex : string) :
  (forall h1 h2 h3 h4 h5 h6 : ascii,
      forallb is_hex_digit [h1; h2; h3; h4; h5; h6] = true ->
      hex = string_of_list_ascii [h1; h2; h3; h4; h5; h6] \/
      hex = String "#" (string_of_list_ascii [h1; h2; h3; h4; h5; h6]) ->
      hexToRgb hex = Some (Rgb.mk (byte_of h1 h2) (byte_of h3 h4) (byte_of h5 h6))) /\
  (forall h1 h2 h3 : ascii,
      forallb is_hex_digit [h1; h2; h3] = true ->
      hex = string_of_list_ascii [h1; h2; h3] \/
      hex = String "#" (string_of_list_ascii [h1; h2; h3]) ->
      cleanHex hex = string_of_list_ascii [h1; h1; h2; h2; h3; h3] /\
      hexToRgb hex = hexToRgb (string_of_list_ascii [h1; h1; h2; h2; h3; h3]) /\
      hexToRgb hex = Some (Rgb.mk (byte_of h1 h1) (byte_of h2 h2) (byte_of h3 h3))) /\
  (~ six_digit hex -> ~ three_digit hex -> hexToRgb hex = None).
Proof.
  split; [|split].
  - intros h1 h2 h3 h4 h5 h6 H Hhex. now apply hexToRgb_six.
  - intros h1 h2 h3 H Hhex.
    destruct (hexToRgb_three h1 h2 h3 hex H Hhex) as [Hc Hr].
    repeat split; auto. rewrite Hr. symmetry.
    apply (hexToRgb_six h1 h1 h2 h2 h3 h3); [|now left].
    split_forallb H. hex_classes.
  - intros N6 N3. destruct (hexToRgb hex) as [rgb|] eqn:E; [|reflexivity].
    apply hexToRgb_some in E. tauto.
Qed.

(** The theorem at ["#ff0000"], ["#0f0"] and ["blue"]. *)
Lemma hexToRgb_decodes_witness :
  hexToRgb "#ff0000" = Some (Rgb.mk (Int 255) (Int 0) (Int 0)) /\
  hexToRgb "#0f0" = Some (Rgb.mk (Int 0) (Int 255) (Int 0)).
Proof.
  split.
  - apply (proj1 (hexToRgb_decodes "#ff0000") "f" "f" "0" "0" "0" "0")%char;
      [reflexivity | right; reflexivity].
  - apply (proj1 (proj2 (hexToRgb_decodes "#0f0")) "0" "f" "0")%char;
      [reflexivity | right; reflexivity].
Defined.

(** ** Strict equality of numbers *)

Lemma SFeqb_same (f1 f2 : spec_float) : SFeqb f1 f2 = true <-> sf_same f1 f2.
Proof.
  unfold SFeqb.
  destruct f1 as [s1|s1| |s1 m1 e1], f2 as [s2|s2| |s2 m2 e2]; simpl;
    try destruct s1; try destruct s2; simpl;
    try solve [split; intros H;
               first [discriminate H | contradiction | reflexivity | exact I
                     | destruct H as (E & _); discriminate E]];
    change (Pos.compare_cont Eq m1 m2) with (Pos.compare m1 m2);
    destruct (Z.compare_spec e1 e2) as [He|He|He];
    try (split; [discriminate | intros (_ & _ & E); lia]);
    destruct (Pos.compare_spec m1 m2) as [Hm|Hm|Hm]; simpl;
    try (split; [discriminate | intros (_ & E & _); lia]);
    subst; split; auto.
Qed.

Lemma sf_same_sym (f1 f2 : spec_float) : sf_same f1 f2 -> sf_same f2 f1.
Proof.
  destruct f1, f2; simpl; intuition congruence.
Qed.

Lemma sf_same_trans (f1 f2 f3 : spec_float) :
  sf_same f1 f2 -> sf_same f2 f3 -> sf_same f1 f3.
Proof.
  destruct f1, f2, f3; simpl; intuition congruence.
Qed.

Lemma strict_eq_sym (x y : float) : PrimFloat.eqb x y = true -> PrimFloat.eqb y x = true.
Proof.
  rewrite !eqb_spec, !SFeqb_same. apply sf_same_sym.
Qed.

Lemma strict_eq_trans (x y z : float) :
  PrimFloat.eqb x y = true -> PrimFloat.eqb y z = true -> PrimFloat.eqb x z = true.
Proof.
  rewrite !eqb_spec, !SFeqb_same. apply sf_same_trans.
Qed.

Lemma same_lat_lng_spec (v2 v : RenderPoint.t) :
  same_lat_lng v2 v = true <->
  PrimFloat.eqb (RenderPoint.lat v2) (RenderPoint.lat v) = true /\
  PrimFloat.eqb (RenderPoint.lng v2) (RenderPoint.lng v) = true.
Proof.
  unfold same_lat_lng, every. simpl. rewrite !andb_true_iff. tauto.
Qed.

Lemma same_lat_lng_sym (p q : RenderPoint.t) :
  same_lat_lng p q = true -> same_lat_lng q p = true.
Proof.
  rewrite !same_lat_lng_spec. intros [H1 H2]. split; now apply strict_eq_sym.
Qed.

Lemma same_lat_lng_trans (p q w : RenderPoint.t) :
  same_lat_lng p q = true -> same_lat_lng q w = true -> same_lat_lng p w = true.
Proof.
  rewrite !same_lat_lng_spec. intros [H1 H2] [H3 H4].
  split; eapply strict_eq_trans; eassumption.
Qed.

Lemma same_lat_lng_refl_l (p q : RenderPoint.t) :
  same_lat_lng p q = true -> same_lat_lng p p = true.
Proof.
  intros H. eapply same_lat_lng_trans; [exact H|]. now apply same_lat_lng_sym.
Qed.

(** ** Array methods *)

Section ArrayMethods.

Context {A : Type}.
Variable p : A -> bool.

Lemma len_app (a b : list A) : len (a ++ b) = len a + len b.
Proof. unfold len. rewrite List.length_app. lia. Qed.

Lemma len_nonneg (a : list A) : 0 <= len a.
Proof. unfold len. lia. Qed.

Lemma len_cons (x : A) (a : list A) : len (x :: a) = len a + 1.
Proof. unfold len. cbn [List.length]. lia. Qed.

Lemma len_nil : len (@nil A) = 0.
Proof. reflexivity. Qed.

Lemma findIndex_from_range (a : list A) :
  forall i, findIndex_from p a i = -1 \/ i <= findIndex_from p a i < i + len a.
Proof.
  induction a as [|x a IH]; intros i; cbn [findIndex_from]; [now left|].
  rewrite len_cons. pose proof (len_nonneg a).
  destruct (p x).
  - right. lia.
  - destruct (IH (i + 1)) as [H' | H']; [now left | right]. lia.
Qed.

Lemma findIndex_from_none (a : list A) :
  forall i, existsb p a = false -> findIndex_from p a i = -1.
Proof.
  induction a as [|x a IH]; intros i; simpl; [reflexivity|].
  destruct (p x); simpl; [discriminate | intros H; now apply IH].
Qed.

Lemma findIndex_from_some (a : list A) :
  forall i, existsb p a = true -> i <= findIndex_from p a i < i + len a.
Proof.
  induction a as [|x a IH]; intros i; cbn [findIndex_from existsb]; [discriminate|].
  rewrite len_cons. pose proof (len_nonneg a).
  destruct (p x); cbn [orb].
  - lia.
  - intros H'. specialize (IH (i + 1) H'). lia.
Qed.

Lemma findIndex_from_app (pre a : list A) :
  forall i,
    findIndex_from p (pre ++ a) i =
    if existsb p pre then findIndex_from p pre i
    else findIndex_from p a (i + len pre).
Proof.
  induction pre as [|x pre IH]; intros i; cbn [app findIndex_from existsb].
  - rewrite len_nil. f_equal. lia.
  - rewrite len_cons. destruct (p x); cbn [orb]; [reflexivity|].
    rewrite IH. destruct (existsb p pre); [reflexivity|].
    f_equal. lia.
Qed.

(** The element at position [len pre] is the one [findIndex] returns exactly
    when it satisfies the predicate and no element before it does. *)
Lemma findIndex_here (pre post : list A) (v : A) :
  (findIndex p (pre ++ v :: post) =? len pre) = (negb (existsb p pre) && p v)%bool.
Proof.
  unfold findIndex. rewrite findIndex_from_app.
  destruct (existsb p pre) eqn:E; simpl.
  - apply findIndex_from_some with (i := 0) in E. apply Z.eqb_neq. lia.
  - destruct (p v).
    + apply Z.eqb_refl.
    + pose proof (findIndex_from_range post (len pre + 1)).
      pose proof (len_nonneg pre). apply Z.eqb_neq. lia.
Qed.

End ArrayMethods.

(** ** The filter of [_buildData] *)

Lemma existsb_same_app (seen : list RenderPoint.t) (v w : RenderPoint.t) :
  existsb (fun q => same_lat_lng q w) (seen ++ [v]) =
  (existsb (fun q => same_lat_lng q w) seen || same_lat_lng v w)%bool.
Proof.
  rewrite existsb_app. simpl. now rewrite orb_false_r.
Qed.

Lemma existsb_same_trans (l : list RenderPoint.t) (v w : RenderPoint.t) :
  existsb (fun q => same_lat_lng q v) l = true ->
  same_lat_lng v w = true ->
  existsb (fun q => same_lat_lng q w) l = true.
Proof.
  rewrite !existsb_exists. intros (q & Hq & Hs) Hvw.
  exists q. split; [exact Hq|]. eapply same_lat_lng_trans; eassumption.
Qed.

(** What the filter keeps, whatever the points: the first occurrences,
    among the points that equal themselves. *)
Lemma filter_keep_first (points : list RenderPoint.t) :
  forall l pre seen,
    points = pre ++ l ->
    (forall w, existsb (fun q => same_lat_lng q w) seen =
               existsb (fun q => same_lat_lng q w) pre) ->
    filter_from
      (fun v i => findIndex (fun v2 => same_lat_lng v2 v) points =? i)
      l (len pre) =
    keep_first seen (filter (fun v => same_lat_lng v v) l).
Proof.
  induction l as [|v l IH]; intros pre seen Hp Hseen; [reflexivity|].
  assert (Hnext : points = (pre ++ [v]) ++ l) by now rewrite <- app_assoc.
  assert (Hlen : len pre + 1 = len (pre ++ [v])) by now rewrite len_app.
  cbn [filter_from filter]. rewrite Hlen.
  rewrite Hp at 1. rewrite findIndex_here.
  destruct (same_lat_lng v v) eqn:Hvv.
  - cbn [keep_first]. rewrite Hseen.
    destruct (existsb (fun q => same_lat_lng q v) pre) eqn:Hpre; simpl.
    + apply IH; [exact Hnext|]. intros w.
      rewrite existsb_same_app, Hseen.
      destruct (same_lat_lng v w) eqn:Hvw; [|now rewrite orb_false_r].
      rewrite orb_true_r. now apply existsb_same_trans with v.
    + f_equal. apply IH; [exact Hnext|]. intros w.
      now rewrite !existsb_same_app, Hseen.
  - rewrite andb_false_r. apply IH; [exact Hnext|]. intros w.
    rewrite existsb_same_app, Hseen.
    destruct (same_lat_lng v w) eqn:Hvw; [|now rewrite orb_false_r].
    apply same_lat_lng_refl_l in Hvw. congruence.
Qed.

(** ** keep_first *)

Lemma same_lat_lng_coord (p q : RenderPoint.t) :
  same_lat_lng p q = same_coord (coord_of p) (coord_of q).
Proof.
  unfold same_lat_lng, same_coord, every. simpl. now rewrite andb_true_r.
Qed.

Lemma existsb_same_coord (p : RenderPoint.t) (l : list RenderPoint.t) :
  existsb (same_coord (coord_of p)) (map coord_of l) =
  existsb (fun q => same_lat_lng p q) l.
Proof.
  induction l as [|q l IH]; simpl; [reflexivity|].
  now rewrite IH, same_lat_lng_coord.
Qed.

Lemma keep_first_not_seen (l : list RenderPoint.t) :
  forall seen p q,
    In p (keep_first seen l) -> In q seen -> same_lat_lng q p = false.
Proof.
  induction l as [|v l IH]; intros seen p q Hp Hq; simpl in Hp; [contradiction|].
  destruct (existsb (fun q => same_lat_lng q v) seen) eqn:E.
  - eapply IH; eassumption.
  - destruct Hp as [<- | Hp].
    + destruct (same_lat_lng q v) eqn:S; [|reflexivity].
      assert (existsb (fun q => same_lat_lng q v) seen = true)
        by (apply existsb_exists; eauto).
      congruence.
    + eapply IH; [exact Hp|]. apply in_or_app. now left.
Qed.

Lemma keep_first_distinct (l : list RenderPoint.t) :
  forall seen, pairwise_distinct (map coord_of (keep_first seen l)) = true.
Proof.
  induction l as [|v l IH]; intros seen; simpl; [reflexivity|].
  destruct (existsb (fun q => same_lat_lng q v) seen) eqn:E; [apply IH|].
  simpl. rewrite IH, andb_true_r, existsb_same_coord.
  destruct (existsb (fun q => same_lat_lng v q) (keep_first (seen ++ [v]) l)) eqn:X;
    [|reflexivity].
  apply existsb_exists in X. destruct X as (p & Hp & Hs).
  rewrite (keep_first_not_seen l (seen ++ [v]) p v Hp) in Hs; [discriminate|].
  apply in_or_app. right. now left.
Qed.

Lemma keep_first_incl (l : list RenderPoint.t) :
  forall seen p, In p (keep_first seen l) -> In p l.
Proof.
  induction l as [|v l IH]; intros seen p; simpl; [auto|].
  destruct (existsb _ seen); [eauto|]. intros [<- | H]; eauto.
Qed.

Lemma keep_first_represents (l : list RenderPoint.t) :
  forall seen p,
    In p l -> same_lat_lng p p = true ->
    (exists q, In q seen /\ same_lat_lng q p = true) \/
    (exists q, In q (keep_first seen l) /\ same_lat_lng q p = true).
Proof.
  induction l as [|v l IH]; intros seen p Hp Hpp; [contradiction|].
  simpl. destruct (existsb (fun q => same_lat_lng q v) seen) eqn:E.
  - destruct Hp as [-> | Hp]; [|now apply IH].
    left. apply existsb_exists in E. exact E.
  - destruct Hp as [-> | Hp].
    + right. exists p. split; [now left | exact Hpp].
    + destruct (IH (seen ++ [v]) p Hp Hpp) as [(q & Hq & Hs) | (q & Hq & Hs)].
      * apply in_app_or in Hq. destruct Hq as [Hq | [<- | []]].
        -- left. eauto.
        -- right. exists v. split; [now left | exact Hs].
      * right. exists q. split; [now right | exact Hs].
Qed.

Lemma keep_first_all (l : list RenderPoint.t) :
  forall seen,
    (forall p, In p l -> existsb (fun q => same_lat_lng q p) seen = false) ->
    pairwise_distinct (map coord_of l) = true ->
    keep_first seen l = l.
Proof.
  induction l as [|v l IH]; intros seen Hseen Hd; [reflexivity|].
  simpl in Hd |- *. apply andb_prop in Hd. destruct Hd as [Hv Hd].
  rewrite (Hseen v) by now left. f_equal.
  apply IH; [|exact Hd]. intros p Hp.
  rewrite existsb_same_app, (Hseen p) by now right. simpl.
  rewrite existsb_same_coord in Hv. apply negb_true_iff in Hv.
  destruct (same_lat_lng v p) eqn:S; [|reflexivity].
  assert (existsb (fun q => same_lat_lng v q) l = true)
    by (apply existsb_exists; eauto).
  congruence.
Qed.

(** ** _buildData *)

Section Builder.

Variable Number_toString : float -> string.
Variable globeConfig : GlobeConfig.t.

Local Notation "'points'" := (_buildData_points Number_toString globeConfig).
Local Notation "'filteredPoints'" :=
  (_buildData_filteredPoints Number_toString globeConfig).
Local Notation "'body'" := (_buildData_body Number_toString globeConfig).
Local Notation "'pushed_for'" := (pushed Number_toString globeConfig).

Lemma body_app (acc : list RenderPoint.t) (arc : Position.t) :
  body acc arc = acc ++ body [] arc.
Proof.
  unfold _buildData_body. destruct (hexToRgb (Position.color arc)).
  - reflexivity.
  - now rewrite app_nil_r.
Qed.

Lemma fold_body (arcs : list Position.t) :
  forall acc, fold_left body arcs acc = acc ++ flat_map (body []) arcs.
Proof.
  induction arcs as [|a arcs IH]; intros acc; simpl.
  - now rewrite app_nil_r.
  - rewrite IH, (body_app acc a). now rewrite <- app_assoc.
Qed.

(** The loop pushes, arc after arc, the two points of each arc whose colour
    decodes. *)
Lemma points_flat_map (arcs : list Position.t) :
  points arcs = flat_map (body []) arcs.
Proof.
  unfold _buildData_points. now rewrite fold_body.
Qed.

Lemma points_app (arcs1 arcs2 : list Position.t) :
  points (arcs1 ++ arcs2) = points arcs1 ++ points arcs2.
Proof.
  rewrite !points_flat_map. apply flat_map_app.
Qed.

Lemma body_undecodable (arc : Position.t) :
  hexToRgb (Position.color arc) = None -> body [] arc = [].
Proof.
  unfold _buildData_body. now intros ->.
Qed.

Lemma body_decodable (arc : Position.t) (rgb : Rgb.t) :
  hexToRgb (Position.color arc) = Some rgb -> body [] arc = pushed_for arc rgb.
Proof.
  unfold _buildData_body. now intros ->.
Qed.

Lemma points_decodable (arcs : list Position.t) :
  points arcs = points (filter decodable arcs).
Proof.
  rewrite !points_flat_map.
  induction arcs as [|a arcs IH]; [reflexivity|].
  cbn [flat_map filter]. unfold decodable at 1.
  destruct (hexToRgb (Position.color a)) eqn:E.
  - cbn [flat_map]. now rewrite IH.
  - now rewrite (body_undecodable a E).
Qed.

Lemma points_origin (arcs : list Position.t) (p : RenderPoint.t) :
  In p (points arcs) <->
  exists arc rgb,
    In arc arcs /\ hexToRgb (Position.color arc) = Some rgb /\ In p (pushed_for arc rgb).
Proof.
  rewrite points_flat_map, in_flat_map. split.
  - intros (arc & Harc & Hp). unfold _buildData_body in Hp.
    destruct (hexToRgb (Position.color arc)) as [rgb|] eqn:E; [|contradiction].
    exists arc, rgb. auto.
  - intros (arc & rgb & Harc & E & Hp). exists arc. split; [exact Harc|].
    now rewrite (body_decodable arc rgb E).
Qed.

Lemma points_coords (arcs : list Position.t) :
  map coord_of (points arcs) = endpoints (filter decodable arcs).
Proof.
  rewrite points_flat_map.
  induction arcs as [|a arcs IH]; [reflexivity|].
  cbn [flat_map filter]. rewrite map_app, IH.
  unfold decodable at 2, _buildData_body.
  destruct (hexToRgb (Position.color a)); reflexivity.
Qed.

Lemma filter_all_decodable (arcs : list Position.t) :
  forallb decodable arcs = true -> filter decodable arcs = arcs.
Proof.
  induction arcs as [|a arcs IH]; simpl; [reflexivity|].
  intros H. apply andb_prop in H. destruct H as [-> H]. now rewrite IH.
Qed.

Lemma endpoints_length (arcs : list Position.t) :
  List.length (endpoints arcs) = (2 * List.length arcs)%nat.
Proof.
  unfold endpoints.
  induction arcs as [|a arcs IH]; simpl; [reflexivity | rewrite IH; lia].
Qed.

(** A point pushed for an arc whose coordinates are numbers equals itself. *)
Lemma points_numeric (arcs : list Position.t) :
  forallb numeric arcs = true ->
  filter (fun v => same_lat_lng v v) (points arcs) = points arcs.
Proof.
  rewrite points_flat_map.
  induction arcs as [|a arcs IH]; [reflexivity|].
  cbn [forallb flat_map]. intros H. apply andb_prop in H. destruct H as [Ha H].
  rewrite filter_app, (IH H). f_equal.
  unfold _buildData_body. destruct (hexToRgb (Position.color a)); [|reflexivity].
  unfold numeric in Ha. simpl in Ha.
  repeat (apply andb_prop in Ha; destruct Ha as [?N Ha]).
  unfold is_number in *. unfold pushed, same_lat_lng, every. simpl.
  now rewrite N, N0, N1, N2.
Qed.

(** What [_buildData] computes, for every arc list: the first occurrences
    among the pushed points that equal themselves. *)
Lemma filteredPoints_keep_first (arcs : list Position.t) :
  filteredPoints arcs =
  keep_first [] (filter (fun v => same_lat_lng v v) (points arcs)).
Proof.
  unfold _buildData_filteredPoints, filter_i.
  apply (filter_keep_first (points arcs) (points arcs) [] []); reflexivity.
Qed.

Lemma filteredPoints_incl (arcs : list Position.t) (p : RenderPoint.t) :
  In p (filteredPoints arcs) -> In p (points arcs).
Proof.
  rewrite filteredPoints_keep_first. intros H.
  apply keep_first_incl in H. now apply filter_In in H.
Qed.

Lemma filteredPoints_represents (arcs : list Position.t) (p : RenderPoint.t) :
  In p (points arcs) -> same_lat_lng p p = true ->
  exists q, In q (filteredPoints arcs) /\ same_lat_lng q p = true.
Proof.
  intros Hp Hpp. rewrite filteredPoints_keep_first.
  destruct (keep_first_represents
              (filter (fun v => same_lat_lng v v) (points arcs)) [] p)
    as [(q & [] & _) | H]; auto.
  apply filter_In. auto.
Qed.

Lemma filteredPoints_decodable (arcs : list Position.t) :
  filteredPoints arcs = filteredPoints (filter decodable arcs).
Proof.
  unfold _buildData_filteredPoints. now rewrite <- points_decodable.
Qed.

(** C1 (as amended). For every arc list whose coordinates are numbers, the
    builder stores the first occurrences of the pushed points, in emission
    order (of each arc whose colour decodes, the start and then the end, arcs
    in input order): a point is kept unless a point kept before has the same
    pair; no two stored points have the same pair and every pushed pair is
    stored once; for arcs whose colours all decode and whose endpoints are
    pairwise distinct, every pushed point is stored, two for each arc. *)
Theorem buildData_first_occurrences (arcs : list Position.t) (st : GlobeState) :
  forallb numeric arcs = true ->
  globeData (_buildData Number_toString globeConfig arcs st)
    = Some (filteredPoints arcs) /\
  map coord_of (points arcs) = endpoints (filter decodable arcs) /\
  filteredPoints arcs = keep_first [] (points arcs) /\
  pairwise_distinct (map coord_of (filteredPoints arcs)) = true /\
  (forall p, In p (points arcs) ->
     exists q, In q (filteredPoints arcs) /\ same_lat_lng q p = true) /\
  (forallb decodable arcs = true ->
   pairwise_distinct (endpoints arcs) = true ->
   filteredPoints arcs = points arcs /\
   List.length (filteredPoints arcs) = (2 * List.length arcs)%nat).
Proof.
  intros Hnum.
  assert (Heq : filteredPoints arcs = keep_first [] (points arcs))
    by now rewrite filteredPoints_keep_first, points_numeric.
  split; [reflexivity|]. split; [apply points_coords|]. split; [exact Heq|].
  split; [rewrite Heq; apply keep_first_distinct|]. split.
  - intros p Hp. apply filteredPoints_represents; [exact Hp|].
    rewrite <- (points_numeric arcs Hnum) in Hp. now apply filter_In in Hp.
  - intros Hdec Hdist.
    assert (Hall : filteredPoints arcs = points arcs).
    { rewrite Heq. apply keep_first_all; [reflexivity|].
      now rewrite points_coords, filter_all_decodable. }
    split; [exact Hall|].
    rewrite Hall, <- (length_map coord_of), points_coords, filter_all_decodable
      by exact Hdec.
    apply endpoints_length.
Qed.


Lemma hex_value_range (c : ascii) : 0 <= hex_value c <= 15.
Proof.
  destruct c as [[] [] [] [] [] [] [] []]; vm_compute; split; discriminate.
Qed.

Lemma byte_of_is_byte (h l : ascii) : is_byte (byte_of h l).
Proof.
  exists (16 * hex_value h + hex_value l). split; [reflexivity|].
  pose proof (hex_value_range h). pose proof (hex_value_range l). lia.
Qed.

Lemma hexToRgb_bytes (hex : string) (rgb : Rgb.t) :
  hexToRgb hex = Some rgb ->
  is_byte (Rgb.r rgb) /\ is_byte (Rgb.g rgb) /\ is_byte (Rgb.b rgb).
Proof.
  intros H. destruct (hexToRgb_some hex rgb H) as [S6 | S3].
  - destruct S6 as (h1 & h2 & h3 & h4 & h5 & h6 & Hd & Hs).
    destruct (hexToRgb_six h1 h2 h3 h4 h5 h6 hex Hd Hs) as [_ E].
    rewrite E in H. inversion H; subst. simpl.
    repeat split; apply byte_of_is_byte.
  - destruct S3 as (h1 & h2 & h3 & Hd & Hs).
    destruct (hexToRgb_three h1 h2 h3 hex Hd Hs) as [_ E].
    rewrite E in H. inversion H; subst. simpl.
    repeat split; apply byte_of_is_byte.
Qed.

Lemma int_toString_byte (z : Z) :
  0 <= z <= 255 -> int_toString (Int z) = byte_decimal z.
Proof.
  intros Hz.
  assert (H : forallb (fun n => String.eqb (int_toString (Int (Z.of_nat n)))
                                  (byte_decimal (Z.of_nat n)))
                (seq 0 256) = true) by (vm_compute; reflexivity).
  rewrite forallb_forall in H. specialize (H (Z.to_nat z)).
  rewrite Z2Nat.id in H by lia. apply String.eqb_eq, H, in_seq. lia.
Qed.

(** C8. Every point of the built dataset was pushed for an arc of the list
    whose colour decodes to three bytes: it has the order of that arc and
    one of its two endpoints, and its colour function, at a time [t], is
    the string [rgba(r, g, b, a)] with those three bytes in decimal and the
    alpha [1 - t]: alpha 1 at [t = 0] and alpha 0 at [t = 1]. *)
Theorem color_fades_linearly (arcs : list Position.t) (p : RenderPoint.t) :
  In p (filteredPoints arcs) ->
  exists (arc : Position.t) (r g b : Z),
    In arc arcs /\
    hexToRgb (Position.color arc) = Some (Rgb.mk (Int r) (Int g) (Int b)) /\
    (0 <= r <= 255 /\ 0 <= g <= 255 /\ 0 <= b <= 255) /\
    RenderPoint.order p = Position.order arc /\
    (coord_of p = (Position.startLat arc, Position.startLng arc) \/
     coord_of p = (Position.endLat arc, Position.endLng arc)) /\
    (forall t : float,
        RenderPoint.color p t =
        ("rgba(" ++ byte_decimal r ++ ", " ++ byte_decimal g ++ ", " ++ byte_decimal b
           ++ ", " ++ Number_toString (1 - t)%float ++ ")")%string) /\
    RenderPoint.color p 0%float =
    ("rgba(" ++ byte_decimal r ++ ", " ++ byte_decimal g ++ ", " ++ byte_decimal b
       ++ ", " ++ Number_toString 1%float ++ ")")%string /\
    RenderPoint.color p 1%float =
    ("rgba(" ++ byte_decimal r ++ ", " ++ byte_decimal g ++ ", " ++ byte_decimal b
       ++ ", " ++ Number_toString 0%float ++ ")")%string.
Proof.
  intros Hp. apply filteredPoints_incl, points_origin in Hp.
  destruct Hp as (arc & rgb & Harc & E & Hp).
  destruct (hexToRgb_bytes _ _ E) as ((r & Er & Hr) & (g & Eg & Hg) & (b & Eb & Hb)).
  destruct rgb as [cr cg cb]. cbn [Rgb.r Rgb.g Rgb.b] in Er, Eg, Eb. subst cr cg cb.
  exists arc, r, g, b. split; [exact Harc|]. split; [exact E|].
  split; [auto|].
  assert (Hcol : forall q, In q (pushed_for arc (Rgb.mk (Int r) (Int g) (Int b))) ->
                 forall t, RenderPoint.color q t =
                   ("rgba(" ++ byte_decimal r ++ ", " ++ byte_decimal g ++ ", "
                      ++ byte_decimal b ++ ", " ++ Number_toString (1 - t)%float
                      ++ ")")%string).
  { intros q [<- | [<- | []]] t; cbn [RenderPoint.color Rgb.r Rgb.g Rgb.b];
      now rewrite !int_toString_byte by assumption. }
  split; [destruct Hp as [<- | [<- | []]]; reflexivity|].
  split; [destruct Hp as [<- | [<- | []]]; [left | right]; reflexivity|].
  split; [exact (Hcol p Hp)|].
  split; [exact (Hcol p Hp 0%float) | exact (Hcol p Hp 1%float)].
Qed.

End Builder.

(** ** Math *)

Lemma floor_scaled_range (u : Q) (n : Z) :
  (0 <= u)%Q -> (u < 1)%Q -> 0 < n -> 0 <= Math_floor (u * inject_Z n) < n.
Proof.
  intros H0 H1 Hn. unfold Math_floor.
  assert (Hq : (0 < inject_Z n)%Q) by (unfold Qlt; simpl; lia).
  split.
  - change 0 with (Qfloor (inject_Z 0)). apply Qfloor_resp_le.
    apply Qmult_le_0_compat; [exact H0 | now apply Qlt_le_weak].
  - assert (Hlt : (u * inject_Z n < inject_Z n)%Q).
    { setoid_replace (inject_Z n) with (1 * inject_Z n)%Q at 2 by ring.
      apply Qmult_lt_compat_r; assumption. }
    pose proof (Qfloor_le (u * inject_Z n)) as Hf.
    assert (Hz : (inject_Z (Qfloor (u * inject_Z n)) < inject_Z n)%Q)
      by (eapply Qle_lt_trans; eassumption).
    now rewrite <- Zlt_Qlt in Hz.
Qed.

Lemma floor_quotient (a : Z) (b : positive) :
  Math_floor (inject_Z a / inject_Z (Z.pos b)) = a / Z.pos b.
Proof.
  unfold Math_floor, Qfloor, Qdiv, Qmult, Qinv, inject_Z. simpl.
  now rewrite Z.mul_1_r.
Qed.

Lemma ring_count_value (data : list Position.t) :
  ring_count data = (len data * 4) / 5.
Proof.
  unfold ring_count. apply floor_quotient.
Qed.

(** The count of a tick never exceeds the number of arcs. *)
Lemma ring_count_le (data : list Position.t) :
  0 <= ring_count data <= len data.
Proof.
  rewrite ring_count_value. pose proof (len_nonneg data). split.
  - apply Z.div_pos; lia.
  - apply Z.div_le_upper_bound; lia.
Qed.

(** ** genRandomNumbers *)

Lemma indexOf_absent (arr : list Z) (x : Z) :
  (indexOf arr x =? -1) = negb (existsb (Z.eqb x) arr).
Proof.
  unfold indexOf, findIndex.
  destruct (existsb (Z.eqb x) arr) eqn:E; simpl.
  - apply (findIndex_from_some (Z.eqb x) arr 0) in E. apply Z.eqb_neq. lia.
  - now rewrite findIndex_from_none.
Qed.

Lemma existsb_In (arr : list Z) (x : Z) :
  existsb (Z.eqb x) arr = true <-> In x arr.
Proof.
  rewrite existsb_exists. split.
  - intros (y & Hy & E). apply Z.eqb_eq in E. now subst.
  - intros H. exists x. split; [exact H | apply Z.eqb_refl].
Qed.

Lemma includes_In (arr : list Z) (x : Z) : includes arr x = true <-> In x arr.
Proof. apply existsb_In. Qed.

Section Selection.

Variable rnd : random_source.
Variables min max count : Z.

(** The value drawn by the [k]-th call of [Math.random()]. *)
Local Notation "'draw' k" :=
  (Math_floor (rnd k * inject_Z (max - min)) + min) (at level 10).

Local Notation "'loop' fuel" :=
  (genRandomNumbers_loop fuel rnd min max count) (at level 10).

Lemma loop_done (fuel : nat) (arr : list Z) (k : nat) :
  count <= len arr -> loop fuel arr k = Some (arr, k).
Proof.
  intros H. destruct fuel; simpl;
    (destruct (len arr <? count) eqn:E; [apply Z.ltb_lt in E; lia | reflexivity]).
Qed.

Lemma loop_step (fuel : nat) (arr : list Z) (k : nat) :
  len arr < count ->
  loop (S fuel) arr k =
  if existsb (Z.eqb (draw k)) arr then loop fuel arr (S k)
  else loop fuel (arr ++ [draw k]) (S k).
Proof.
  intros H. cbn [genRandomNumbers_loop].
  apply Z.ltb_lt in H. rewrite H, indexOf_absent.
  now destruct (existsb _ arr).
Qed.

Lemma loop_out_of_fuel (arr : list Z) (k : nat) :
  len arr < count -> loop 0 arr k = None.
Proof.
  intros H. cbn [genRandomNumbers_loop]. apply Z.ltb_lt in H. now rewrite H.
Qed.

(** What a completed run returns: the array extended by distinct new values,
    each a draw of the source, up to [count] elements. *)
Lemma loop_sound (fuel : nat) :
  forall arr k res k',
    loop fuel arr k = Some (res, k') ->
    (k <= k')%nat /\
    (NoDup arr -> NoDup res) /\
    (forall x, In x res -> In x arr \/ exists j, (k <= j < k')%nat /\ x = draw j) /\
    (len arr <= count -> len res = count).
Proof.
  induction fuel as [|fuel IH]; intros arr k res k' H.
  - destruct (Z_lt_ge_dec (len arr) count) as [L | L].
    + rewrite loop_out_of_fuel in H by exact L. discriminate.
    + rewrite loop_done in H by lia. inversion H; subst.
      repeat split; auto; lia.
  - destruct (Z_lt_ge_dec (len arr) count) as [L | L].
    + rewrite loop_step in H by exact L.
      destruct (existsb (Z.eqb (draw k)) arr) eqn:E.
      * destruct (IH _ _ _ _ H) as (Hk & Hnd & Hin & Hlen).
        repeat split; auto; try lia.
        intros x Hx. destruct (Hin x Hx) as [? | (j & Hj & ->)]; auto.
        right. exists j. split; [lia | reflexivity].
      * destruct (IH _ _ _ _ H) as (Hk & Hnd & Hin & Hlen).
        assert (Hfresh : ~ In (draw k) arr).
        { intros Hc. apply existsb_In in Hc. congruence. }
        repeat split; try lia.
        -- intros Harr. apply Hnd. apply NoDup_app; [exact Harr | | ].
           ++ constructor; [intros [] | constructor].
           ++ intros x Hx [<- | []]. contradiction.
        -- intros x Hx. destruct (Hin x Hx) as [Hx' | (j & Hj & ->)].
           ++ apply in_app_or in Hx'. destruct Hx' as [? | [<- | []]]; auto.
              right. exists k. split; [lia | reflexivity].
           ++ right. exists j. split; [lia | reflexivity].
        -- intros _. apply Hlen. rewrite len_app. unfold len at 2. simpl. lia.
    + rewrite loop_done in H by lia. inversion H; subst.
      repeat split; auto; lia.
Qed.

End Selection.

(** ** Termination of the selection *)


Section Termination.

Variable rnd : random_source.
Variables n count : Z.

Local Notation "'draw' k" := (Math_floor (rnd k * inject_Z (n - 0)) + 0) (at level 10).
Local Notation "'loop' fuel" := (genRandomNumbers_loop fuel rnd 0 n count) (at level 10).



(** With more values asked for than there are indices, no run completes. *)
Lemma loop_needs_room :
  unit_interval rnd -> 0 < n -> n < count ->
  forall fuel k, genRandomNumbers fuel rnd 0 n count k = None.
Proof.
  intros Hunit Hn Hcount fuel k. unfold genRandomNumbers.
  destruct (loop fuel [] k) as [[res k']|] eqn:E; [|reflexivity].
  exfalso. destruct (loop_sound rnd 0 n count fuel _ _ _ _ E) as (_ & Hnd & Hin & Hlen).
  specialize (Hnd (NoDup_nil _)).
  assert (Hres : len res = count) by (apply Hlen; unfold len; simpl; lia).
  assert (Hincl : incl res (map Z.of_nat (seq 0 (Z.to_nat n)))).
  { intros x Hx. destruct (Hin x Hx) as [[] | (j & _ & ->)].
    destruct (Hunit j) as [H0 H1].
    pose proof (floor_scaled_range (rnd j) (n - 0) H0 H1 ltac:(lia)) as Hr.
    apply in_map_iff. exists (Z.to_nat (draw j)). split; [lia|].
    apply in_seq. lia. }
  pose proof (NoDup_incl_length Hnd Hincl) as Hle.
  rewrite length_map, length_seq in Hle. unfold len in Hres. lia.
Qed.

End Termination.

(** A source that keeps answering one value makes the loop run for ever as
    soon as two values are asked for. *)
Lemma loop_stuck (u : Q) (n count : Z) :
  2 <= count ->
  forall fuel k, genRandomNumbers fuel (constant_source u) 0 n count k = None.
Proof.
  intros Hcount fuel k. unfold genRandomNumbers.
  set (r := Math_floor (u * inject_Z (n - 0)) + 0).
  assert (Hstuck : forall fuel k,
             genRandomNumbers_loop fuel (constant_source u) 0 n count [r] k = None).
  { clear fuel k. induction fuel as [|fuel IH]; intros k.
    - apply loop_out_of_fuel. unfold len. simpl. lia.
    - rewrite loop_step by (unfold len; simpl; lia).
      unfold constant_source at 1. fold r. simpl. rewrite Z.eqb_refl. simpl.
      apply IH. }
  destruct fuel as [|fuel].
  - apply loop_out_of_fuel. unfold len. simpl. lia.
  - rewrite loop_step by (unfold len; simpl; lia). simpl. apply Hstuck.
Qed.

(** ** The ring tick *)

Lemma flat_map_ext_in {A B : Type} (f g : A -> list B) (l : list A) :
  (forall a, In a l -> f a = g a) -> flat_map f l = flat_map g l.
Proof.
  induction l as [|a l IH]; intros H; simpl; [reflexivity|].
  rewrite (H a) by now left. f_equal. apply IH. intros b Hb. apply H. now right.
Qed.

Lemma filter_from_positions {A : Type} (f : A -> Z -> bool) (l : list A) :
  forall k : nat,
    filter_from f l (Z.of_nat k) =
    flat_map
      (fun i =>
         match nth_error l (i - k) with
         | Some x => if f x (Z.of_nat i) then [x] else []
         | None => []
         end)
      (seq k (List.length l)).
Proof.
  induction l as [|x l IH]; intros k; [reflexivity|].
  cbn [filter_from List.length seq flat_map].
  rewrite Nat.sub_diag. cbn [nth_error].
  replace (Z.of_nat k + 1) with (Z.of_nat (S k)) by lia.
  rewrite IH.
  rewrite (flat_map_ext_in
             (fun i => match nth_error (x :: l) (i - k) with
                       | Some x0 => if f x0 (Z.of_nat i) then [x0] else []
                       | None => []
                       end)
             (fun i => match nth_error l (i - S k) with
                       | Some x0 => if f x0 (Z.of_nat i) then [x0] else []
                       | None => []
                       end)).
  - now destruct (f x (Z.of_nat k)).
  - intros i Hi. apply in_seq in Hi.
    replace (i - k)%nat with (S (i - S k)) by lia. reflexivity.
Qed.

(** The filter of a tick keeps the points whose position is a drawn index. *)
Lemma filter_points_at (nums : list Z) (gd : list RenderPoint.t) :
  filter_i (fun d i => includes nums i) gd = points_at nums gd.
Proof.
  unfold filter_i, points_at. rewrite (filter_from_positions _ gd 0).
  apply flat_map_ext_in. intros i _. now rewrite Nat.sub_0_r.
Qed.

Lemma points_at_In (nums : list Z) (gd : list RenderPoint.t) (p : RenderPoint.t) :
  In p (points_at nums gd) <->
  exists i : nat, nth_error gd i = Some p /\ In (Z.of_nat i) nums.
Proof.
  unfold points_at. rewrite in_flat_map. split.
  - intros (i & _ & Hp). destruct (nth_error gd i) as [q|] eqn:E; [|contradiction].
    destruct (includes nums (Z.of_nat i)) eqn:I; [|contradiction].
    destruct Hp as [<- | []]. exists i. split; [exact E | now apply includes_In].
  - intros (i & E & Hi). exists i. split.
    + apply in_seq. split; [lia|]. apply nth_error_Some. congruence.
    + rewrite E. apply includes_In in Hi. rewrite Hi. now left.
Qed.

Lemma len_zero {A : Type} (l : list A) : (len l =? 0) = true <-> l = [].
Proof.
  rewrite Z.eqb_eq. unfold len. destruct l; simpl; split; intros H;
    try reflexivity; try discriminate; lia.
Qed.

Lemma ringTick_guarded (fuel : nat) (rnd : random_source)
    (gd : list RenderPoint.t) (g : ThreeGlobe) (data : list Position.t) (s : TickState) :
  instance s = Some g -> data <> [] ->
  ringTick fuel rnd (Some gd) data s =
  match genRandomNumbers fuel rnd 0 (len data) (ring_count data) (cursor s) with
  | Some (nums, k') =>
      Some {| numbersOfRings := nums;
              instance := Some (g |> ringsData (filter_i (fun d i => includes nums i) gd));
              cursor := k' |}
  | None => None
  end.
Proof.
  intros Hg Hdata. unfold ringTick. rewrite Hg.
  destruct (len data =? 0) eqn:E; [|reflexivity].
  apply len_zero in E. contradiction.
Qed.

Lemma genRandomNumbers_sound (fuel : nat) (rnd : random_source) (n count : Z)
    (k : nat) (res : list Z) (k' : nat) :
  unit_interval rnd -> 0 < n -> 0 <= count ->
  genRandomNumbers fuel rnd 0 n count k = Some (res, k') ->
  len res = count /\ NoDup res /\ forall i, In i res -> 0 <= i < n.
Proof.
  intros Hunit Hn Hcount H.
  destruct (loop_sound rnd 0 n count fuel _ _ _ _ H) as (_ & Hnd & Hin & Hlen).
  split; [apply Hlen; unfold len; simpl; lia|].
  split; [apply Hnd; constructor|].
  intros i Hi. destruct (Hin i Hi) as [[] | (j & _ & ->)].
  destruct (Hunit j) as [H0 H1].
  pose proof (floor_scaled_range (rnd j) (n - 0) H0 H1 ltac:(lia)). lia.
Qed.

Lemma len_pos {A : Type} (l : list A) : l <> [] -> 0 < len l.
Proof.
  destruct l; [contradiction|]. intros _. unfold len. simpl. lia.
Qed.





(** C10. With no arc, every derived collection is empty: the loop pushes
    nothing and the built dataset is empty, the layers are given empty data,
    the effect sets no interval, a tick changes nothing and ends at once,
    and the selection it would ask for is the empty one, at no fuel. *)
Theorem empty_arc_list (Number_toString : float -> string) (globeConfig : GlobeConfig.t)
    (st : GlobeState) (g : ThreeGlobe) (rnd : random_source) (fuel : nat)
    (globeData0 : option (list RenderPoint.t)) (s : TickState) :
  _buildData_points Number_toString globeConfig [] = [] /\
  globeData (_buildData Number_toString globeConfig [] st) = Some [] /\
  configured the_arcsData (startAnimation_on globeConfig [] g []) = Some [] /\
  configured the_pointsData (startAnimation_on globeConfig [] g []) = Some [] /\
  configured the_ringsData (startAnimation_on globeConfig [] g []) = Some [] /\
  ringEffect st [] = None /\
  ringTick fuel rnd globeData0 [] s = Some s /\
  ring_count [] = 0 /\
  genRandomNumbers fuel rnd 0 (len (@nil Position.t)) (ring_count []) (cursor s)
    = Some ([], cursor s).
Proof.
  repeat split; try reflexivity.
  - unfold ringEffect. destruct (globeRef st), (globeData st); reflexivity.
  - unfold ringTick. destruct (instance s), globeData0; reflexivity.
  - destruct fuel; reflexivity.
Qed.

(** C9 (as amended). The arc layer takes its dash length from the merged
    configuration ([arcLength], 0.9 unless set), its dash gap is the constant
    15, the start delay of an arc is its order times 1, and the dash animate
    time is [arcTime] of the merged configuration (2000 unless set). *)
Theorem arc_dash_configuration (globeConfig : GlobeConfig.t) (data : list Position.t)
    (g : ThreeGlobe) (gd : list RenderPoint.t) :
  configured the_arcDashLength (startAnimation_on globeConfig data g gd)
    = Some (Const (Props.arcLength (defaultProps globeConfig))) /\
  Props.arcLength (defaultProps globeConfig)
    = spread 0.9%float (GlobeConfig.arcLength globeConfig) /\
  configured the_arcDashGap (startAnimation_on globeConfig data g gd)
    = Some (Const 15%float) /\
  (exists f,
      configured the_arcDashInitialGap (startAnimation_on globeConfig data g gd) = Some f /\
      forall e, access f e = (Position.order e * 1)%float) /\
  (exists f,
      configured the_arcDashAnimateTime (startAnimation_on globeConfig data g gd) = Some f /\
      forall e, access f e = Props.arcTime (defaultProps globeConfig)) /\
  Props.arcTime (defaultProps globeConfig)
    = spread 2000%float (GlobeConfig.arcTime globeConfig).
Proof.
  repeat split; try reflexivity; eexists; split; try reflexivity; reflexivity.
Qed.

(** [startAnimation] configures the instance when both are set, and does
    nothing otherwise. *)
Lemma startAnimation_guard (globeConfig : GlobeConfig.t) (data : list Position.t)
    (st : GlobeState) :
  startAnimation globeConfig data st =
  match globeRef st, globeData st with
  | Some g, Some gd => mkState (Some (startAnimation_on globeConfig data g gd)) (Some gd)
  | _, _ => st
  end.
Proof. reflexivity. Qed.

(** ** The stroke of an arc *)

Lemma floor_unique (q : Q) (k : Z) :
  (inject_Z k <= q)%Q -> (q < inject_Z k + 1)%Q -> Qfloor q = k.
Proof.
  intros Hlo Hhi.
  pose proof (Qfloor_le q) as H1. pose proof (Qlt_floor q) as H2.
  assert (E : (inject_Z k + 1 == inject_Z (k + 1))%Q)
    by (rewrite inject_Z_plus; reflexivity).
  rewrite E in Hhi.
  assert (A : (inject_Z (Qfloor q) < inject_Z (k + 1))%Q)
    by (eapply Qle_lt_trans; eassumption).
  assert (B : (inject_Z k < inject_Z (Qfloor q + 1))%Q)
    by (eapply Qle_lt_trans; eassumption).
  rewrite <- Zlt_Qlt in A, B. lia.
Qed.

Lemma stroke_index_cases (u : Q) :
  (0 <= u)%Q -> (u < 1)%Q ->
  (stroke_index u = 0 <-> (u < 1 # 4)%Q) /\
  (stroke_index u = 1 <-> ((1 # 4) <= u)%Q /\ (u < 3 # 4)%Q) /\
  (stroke_index u = 2 <-> ((3 # 4) <= u)%Q).
Proof.
  intros H0 H1. unfold stroke_index, Math_round.
  destruct (Qlt_le_dec u (1 # 4)) as [A | A].
  - rewrite (floor_unique (u * 2 + (1 # 2)) 0) by (unfold inject_Z; lra).
    repeat split; intros; try discriminate; try lra; auto.
  - destruct (Qlt_le_dec u (3 # 4)) as [B | B].
    + rewrite (floor_unique (u * 2 + (1 # 2)) 1) by (unfold inject_Z; lra).
      repeat split; intros; try discriminate; try lra; auto.
    + rewrite (floor_unique (u * 2 + (1 # 2)) 2) by (unfold inject_Z; lra).
      repeat split; intros; try discriminate; try lra; auto.
Qed.

(** C7 (as amended). The stroke width of an arc is one of 0.32, 0.28 and
    0.30, selected by a call of [Math.random()] of its own and by nothing of
    the arc: 0.32 when the value is below 1/4, 0.28 from 1/4 to below 3/4
    and 0.30 from 3/4 on, so that 0.28 is as likely as the other two
    together. *)
Theorem stroke_selection (globeConfig : GlobeConfig.t) (data : list Position.t)
    (g : ThreeGlobe) (gd : list RenderPoint.t) (e : Position.t) (u : Q) :
  (0 <= u)%Q -> (u < 1)%Q ->
  configured the_arcStroke (startAnimation_on globeConfig data g gd) = Some (Fn stroke) /\
  (forall e', stroke e' u = stroke e u) /\
  stroke e u = array_get [0.32; 0.28; 0.3]%float (stroke_index u) /\
  (stroke e u = Some 0.32%float <-> (u < 1 # 4)%Q) /\
  (stroke e u = Some 0.28%float <-> ((1 # 4) <= u)%Q /\ (u < 3 # 4)%Q) /\
  (stroke e u = Some 0.3%float <-> ((3 # 4) <= u)%Q).
Proof.
  intros H0 H1. destruct (stroke_index_cases u H0 H1) as (C0 & C1 & C2).
  split; [reflexivity|]. split; [reflexivity|]. split; [reflexivity|].
  unfold stroke. fold (stroke_index u).
  destruct (Qlt_le_dec u (1 # 4)) as [A | A].
  - rewrite (proj2 C0 A). cbn.
    repeat split; intros; try discriminate; try lra; auto.
  - destruct (Qlt_le_dec u (3 # 4)) as [B | B].
    + rewrite (proj2 C1 (conj A B)). cbn.
      repeat split; intros; try discriminate; try lra; auto.
    + rewrite (proj2 C2 B). cbn.
      repeat split; intros; try discriminate; try lra; auto.
Qed.

(** ** Sources of random values *)


Lemma round_robin_unit (n : Z) : 0 < n -> unit_interval (round_robin n).
Proof.
  intros Hn k. unfold round_robin, Qle, Qlt. simpl.
  rewrite Z2Pos.id by exact Hn.
  pose proof (Z.mod_pos_bound (Z.of_nat k) n Hn). lia.
Qed.


(** ** Examples *)

Example hexToRgb_red :
  hexToRgb "#ff0000" = Some (Rgb.mk (Int 255) (Int 0) (Int 0)).
Proof. reflexivity. Qed.

Example hexToRgb_green_bare :
  hexToRgb "00ff00" = Some (Rgb.mk (Int 0) (Int 255) (Int 0)).
Proof. reflexivity. Qed.

Example hexToRgb_shorthand :
  hexToRgb "#0f0" = Some (Rgb.mk (Int 0) (Int 255) (Int 0)).
Proof. reflexivity. Qed.

Example hexToRgb_upper_case :
  hexToRgb "#8A2BE2" = Some (Rgb.mk (Int 138) (Int 43) (Int 226)).
Proof. reflexivity. Qed.

Example hexToRgb_blue : hexToRgb "blue" = None.
Proof. reflexivity. Qed.

Example hexToRgb_two_digits : hexToRgb "#12" = None.
Proof. reflexivity. Qed.

(** The page's six arcs share two endpoints: ten points are built. *)
Example mockData_points :
  map coord_of (_buildData_filteredPoints integral_toString mockGlobeConfig mockData)
  = [ (40.7128, -74.0060); (34.0522, -118.2437); (51.5074, -0.1278);
      (35.6895, 139.6917); (-33.8688, 151.2093); (39.9042, 116.4074);
      (30.0444, 31.2357); (28.2307, 32.3942); (31.0461, 29.9553);
      (29.9782, 32.8878) ]%float.
Proof. vm_compute. reflexivity. Qed.

Example mockData_first_color :
  map (fun p => (RenderPoint.color p 0%float, RenderPoint.color p 1%float))
      (firstn 1 (_buildData_filteredPoints integral_toString mockGlobeConfig mockData))
  = [ ("rgba(255, 0, 0, 1)"%string, "rgba(255, 0, 0, 0)"%string) ].
Proof. vm_compute. reflexivity. Qed.

(** A point with a coordinate that is not a number is not stored: it is not
    the first point equal to itself. *)
Example nan_point_not_stored :
  map coord_of
    (_buildData_filteredPoints integral_toString mockGlobeConfig
       [Position.mk 1 nan 0 1 1 0.5 "#ff0000"])
  = [ (1, 1) ]%float.
Proof. vm_compute. reflexivity. Qed.

(** With ten arcs and the outcomes taken in turn, eight indices. *)
Example ten_arcs_eight_indices :
  genRandomNumbers 8 (round_robin 10) 0 10 ((10 * 4) / 5) 0
  = Some ([0; 1; 2; 3; 4; 5; 6; 7], 8%nat).
Proof. vm_compute. reflexivity. Qed.

(** With the six arcs of the page a tick asks for four indices; a source
    that keeps answering 0 never lets it complete. *)
Example constant_source_never_completes (fuel : nat) :
  ringTick fuel (constant_source 0) (Some []) mockData (mkTick [] (Some []) 0) = None.
Proof.
  rewrite (ringTick_guarded fuel _ [] []) by (reflexivity || discriminate).
  rewrite loop_stuck; [reflexivity|].
  rewrite ring_count_value. vm_compute. discriminate.
Qed.

(** ** The claims at concrete inputs *)

(** C1 as stated fails where a colour does not decode: one arc with distinct
    endpoints and the colour ["blue"] gives no point, not two. *)
Lemma buildData_2n_counterexample :
  pairwise_distinct (endpoints [Position.mk 1 0 0 1 1 0.5 "blue"]) = true /\
  _buildData_filteredPoints integral_toString mockGlobeConfig
    [Position.mk 1 0 0 1 1 0.5 "blue"] = [] /\
  ~ (forall (toStr : float -> string) (cfg : GlobeConfig.t) (arcs : list Position.t),
        pairwise_distinct (endpoints arcs) = true ->
        List.length (_buildData_filteredPoints toStr cfg arcs)
        = (2 * List.length arcs)%nat).
Proof.
  split; [vm_compute; reflexivity|]. split; [vm_compute; reflexivity|].
  intros H.
  specialize (H integral_toString mockGlobeConfig [Position.mk 1 0 0 1 1 0.5 "blue"]
                eq_refl).
  vm_compute in H. discriminate H.
Qed.

(** C1 as amended, at the first three arcs of the page. *)
Lemma buildData_first_occurrences_witness :
  List.length
    (_buildData_filteredPoints integral_toString mockGlobeConfig (firstn 3 mockData))
  = 6%nat.
Proof.
  destruct (buildData_first_occurrences integral_toString mockGlobeConfig
              (firstn 3 mockData) (mkState (Some []) None))
    as (_ & _ & _ & _ & _ & H); [vm_compute; reflexivity|].
  apply H; vm_compute; reflexivity.
Defined.

Lemma mockData_not_empty : mockData <> [].
Proof. discriminate. Qed.







(** C7 as stated fails: over twelve evenly spaced values of [Math.random()],
    the width 0.28 is selected six times and each of the others three
    times, where a uniform choice would select each four times. *)
Lemma stroke_not_uniform :
  map (fun k => stroke_index (Z.of_nat k # 12)) (seq 0 12)
  = [0; 0; 0; 1; 1; 1; 1; 1; 1; 2; 2; 2] /\
  map (fun k => stroke (Position.mk 1 0 0 1 1 0.5 "#ff0000") (Z.of_nat k # 12)) (seq 0 12)
  = map Some [0.32; 0.32; 0.32; 0.28; 0.28; 0.28; 0.28; 0.28; 0.28; 0.3; 0.3; 0.3]%float /\
  ~ (forall i, In i [0; 1; 2] ->
       count_occ Z.eq_dec
         (map (fun k => stroke_index (Z.of_nat k # 12)) (seq 0 12)) i = 4%nat).
Proof.
  split; [vm_compute; reflexivity|]. split; [vm_compute; reflexivity|].
  intros H. specialize (H 1 (or_intror (or_introl eq_refl))).
  vm_compute in H. discriminate H.
Qed.

(** C7 as amended, at the value 1/2. *)
Lemma stroke_selection_witness :
  stroke (Position.mk 1 0 0 1 1 0.5 "#ff0000") (1 # 2) = Some 0.28%float.
Proof.
  apply (proj2 (proj2 (proj2 (proj2
           (stroke_selection mockGlobeConfig mockData [] []
              (Position.mk 1 0 0 1 1 0.5 "#ff0000") (1 # 2)
              ltac:(unfold Qle; simpl; lia) ltac:(unfold Qlt; simpl; lia)))))).
  split; [unfold Qle | unfold Qlt]; simpl; lia.
Defined.

(** C8 at the first point built from the page's arcs: it is the start of
    the first arc, red, and prints alpha 1 at time 0 and alpha 0 at time 1. *)
Lemma color_fades_linearly_witness :
  exists (arc : Position.t) (r g b : Z),
    In arc mockData /\
    hexToRgb (Position.color arc) = Some (Rgb.mk (Int r) (Int g) (Int b)) /\
    RenderPoint.order
      (nth 0 (_buildData_filteredPoints integral_toString mockGlobeConfig mockData)
           (RenderPoint.mk 0 0 (fun _ => EmptyString) 0 0))
    = Position.order arc /\
    RenderPoint.color
      (nth 0 (_buildData_filteredPoints integral_toString mockGlobeConfig mockData)
           (RenderPoint.mk 0 0 (fun _ => EmptyString) 0 0)) 0%float
    = ("rgba(" ++ byte_decimal r ++ ", " ++ byte_decimal g ++ ", " ++ byte_decimal b
         ++ ", 1)")%string /\
    RenderPoint.color
      (nth 0 (_buildData_filteredPoints integral_toString mockGlobeConfig mockData)
           (RenderPoint.mk 0 0 (fun _ => EmptyString) 0 0)) 1%float
    = ("rgba(" ++ byte_decimal r ++ ", " ++ byte_decimal g ++ ", " ++ byte_decimal b
         ++ ", 0)")%string.
Proof.
  destruct (color_fades_linearly integral_toString mockGlobeConfig mockData
              (nth 0 (_buildData_filteredPoints integral_toString mockGlobeConfig mockData)
                   (RenderPoint.mk 0 0 (fun _ => EmptyString) 0 0)))
    as (arc & r & g & b & H1 & H2 & _ & H4 & _ & _ & H7 & H8).
  - apply nth_In. vm_compute. lia.
  - exists arc, r, g, b. repeat split; assumption.
Defined.

(** C9 as stated fails: the dash gap is 15 under the page's configuration
    and under the empty one, and 15 is no numeric property of either. *)
Lemma dash_gap_not_from_config :
  configured the_arcDashGap (startAnimation_on mockGlobeConfig mockData [] [])
    = Some (Const 15%float) /\
  existsb (PrimFloat.eqb 15) (numeric_props (defaultProps mockGlobeConfig)) = false /\
  configured the_arcDashGap (startAnimation_on GlobeConfig.empty mockData [] [])
    = Some (Const 15%float) /\
  existsb (PrimFloat.eqb 15) (numeric_props (defaultProps GlobeConfig.empty)) = false.
Proof.
  repeat split; vm_compute; reflexivity.
Qed.

(** * Further properties *)

(** ** hexToRgb and the case of letters, the leading [#] *)

Lemma map_string_cons_inv (f : ascii -> ascii) (s : string) (a : ascii) (t : string) :
  map_string f s = String a t ->
  exists b s', s = String b s' /\ f b = a /\ map_string f s' = t.
Proof.
  destruct s as [|b s']; simpl; intros H; [discriminate|].
  inversion H. eauto.
Qed.

Lemma map_string_nil_inv (f : ascii -> ascii) (s : string) :
  map_string f s = EmptyString -> s = EmptyString.
Proof. destruct s; [reflexivity | discriminate]. Qed.

Section LetterCase.

Variable f : ascii -> ascii.
Hypothesis f_digit : forall c, is_hex_digit (f c) = is_hex_digit c.
Hypothesis f_hash : forall c, Ascii.eqb (f c) "#" = Ascii.eqb c "#".
Hypothesis f_value : forall c, hex_value (f c) = hex_value c.

Lemma f_hash_inv (c : ascii) : f c = "#"%char -> c = "#"%char.
Proof.
  intros H. apply Ascii.eqb_eq. rewrite <- f_hash. now apply Ascii.eqb_eq.
Qed.

Lemma f_hash_fixed : f "#" = "#"%char.
Proof. apply Ascii.eqb_eq. rewrite f_hash. reflexivity. Qed.

Lemma six_digit_map (s : string) :
  six_digit s ->
  exists h1 h2 h3 h4 h5 h6,
    forallb is_hex_digit [h1; h2; h3; h4; h5; h6] = true /\
    (s = string_of_list_ascii [h1; h2; h3; h4; h5; h6] \/
     s = String "#" (string_of_list_ascii [h1; h2; h3; h4; h5; h6])) /\
    forallb is_hex_digit [f h1; f h2; f h3; f h4; f h5; f h6] = true /\
    (map_string f s = string_of_list_ascii [f h1; f h2; f h3; f h4; f h5; f h6] \/
     map_string f s = String "#" (string_of_list_ascii [f h1; f h2; f h3; f h4; f h5; f h6])).
Proof.
  intros (h1 & h2 & h3 & h4 & h5 & h6 & Hd & Hs).
  exists h1, h2, h3, h4, h5, h6. split; [exact Hd|]. split; [exact Hs|].
  split; [simpl; rewrite !f_digit; exact Hd|].
  destruct Hs as [-> | ->]; simpl; [now left | right; now rewrite f_hash_fixed].
Qed.

Lemma three_digit_map (s : string) :
  three_digit s ->
  exists h1 h2 h3,
    forallb is_hex_digit [h1; h2; h3] = true /\
    (s = string_of_list_ascii [h1; h2; h3] \/
     s = String "#" (string_of_list_ascii [h1; h2; h3])) /\
    forallb is_hex_digit [f h1; f h2; f h3] = true /\
    (map_string f s = string_of_list_ascii [f h1; f h2; f h3] \/
     map_string f s = String "#" (string_of_list_ascii [f h1; f h2; f h3])).
Proof.
  intros (h1 & h2 & h3 & Hd & Hs).
  exists h1, h2, h3. split; [exact Hd|]. split; [exact Hs|].
  split; [simpl; rewrite !f_digit; exact Hd|].
  destruct Hs as [-> | ->]; simpl; [now left | right; now rewrite f_hash_fixed].
Qed.

Ltac unmap H :=
  repeat match type of H with
         | map_string f _ = String _ _ =>
             apply map_string_cons_inv in H;
             let b := fresh "b" in let s := fresh "s" in let E := fresh "E" in
             destruct H as (b & s & -> & E & H)
         | map_string f _ = EmptyString => apply map_string_nil_inv in H; subst
         end.

Lemma six_digit_unmap (s : string) : six_digit (map_string f s) -> six_digit s.
Proof.
  intros (h1 & h2 & h3 & h4 & h5 & h6 & Hd & Hs).
  destruct Hs as [Hs | Hs]; simpl in Hs; unmap Hs; subst;
    simpl in Hd; rewrite !f_digit in Hd.
  - exists b, b0, b1, b2, b3, b4. split; [exact Hd | now left].
  - apply f_hash_inv in E. subst.
    exists b0, b1, b2, b3, b4, b5. split; [exact Hd | now right].
Qed.

Lemma three_digit_unmap (s : string) : three_digit (map_string f s) -> three_digit s.
Proof.
  intros (h1 & h2 & h3 & Hd & Hs).
  destruct Hs as [Hs | Hs]; simpl in Hs; unmap Hs; subst;
    simpl in Hd; rewrite !f_digit in Hd.
  - exists b, b0, b1. split; [exact Hd | now left].
  - apply f_hash_inv in E. subst.
    exists b0, b1, b2. split; [exact Hd | now right].
Qed.

Lemma byte_of_map (h l : ascii) : byte_of (f h) (f l) = byte_of h l.
Proof. unfold byte_of. now rewrite !f_value. Qed.

Lemma hexToRgb_map (s : string) : hexToRgb (map_string f s) = hexToRgb s.
Proof.
  destruct (hexToRgb s) as [rgb|] eqn:E.
  - destruct (hexToRgb_some s rgb E) as [S6 | S3].
    + destruct (six_digit_map s S6) as (h1 & h2 & h3 & h4 & h5 & h6 & Hd & Hs & Hd' & Hs').
      rewrite (proj2 (hexToRgb_six _ _ _ _ _ _ _ Hd' Hs')).
      rewrite (proj2 (hexToRgb_six _ _ _ _ _ _ _ Hd Hs)) in E.
      now rewrite <- E, !byte_of_map.
    + destruct (three_digit_map s S3) as (h1 & h2 & h3 & Hd & Hs & Hd' & Hs').
      rewrite (proj2 (hexToRgb_three _ _ _ _ Hd' Hs')).
      rewrite (proj2 (hexToRgb_three _ _ _ _ Hd Hs)) in E.
      now rewrite <- E, !byte_of_map.
  - destruct (hexToRgb (map_string f s)) as [rgb|] eqn:E'; [exfalso | reflexivity].
    destruct (hexToRgb_some _ rgb E') as [S6 | S3].
    + apply six_digit_unmap in S6.
      destruct S6 as (h1 & h2 & h3 & h4 & h5 & h6 & Hd & Hs).
      rewrite (proj2 (hexToRgb_six _ _ _ _ _ _ _ Hd Hs)) in E. discriminate.
    + apply three_digit_unmap in S3.
      destruct S3 as (h1 & h2 & h3 & Hd & Hs).
      rewrite (proj2 (hexToRgb_three _ _ _ _ Hd Hs)) in E. discriminate.
Qed.

End LetterCase.

Lemma upcase_facts (c : ascii) :
  is_hex_digit (upcase c) = is_hex_digit c /\
  Ascii.eqb (upcase c) "#" = Ascii.eqb c "#" /\
  hex_value (upcase c) = hex_value c.
Proof.
  destruct c as [[] [] [] [] [] [] [] []]; repeat split; reflexivity.
Qed.

Lemma downcase_facts (c : ascii) :
  is_hex_digit (downcase c) = is_hex_digit c /\
  Ascii.eqb (downcase c) "#" = Ascii.eqb c "#" /\
  hex_value (downcase c) = hex_value c.
Proof.
  destruct c as [[] [] [] [] [] [] [] []]; repeat split; reflexivity.
Qed.

(** X1. [hexToRgb] does not look at the case of letters: a string, its
    upper-case form and its lower-case form decode alike, to the same bytes
    or all to [null]. *)
Theorem hexToRgb_ignores_case (hex : string) :
  hexToRgb (map_string upcase hex) = hexToRgb hex /\
  hexToRgb (map_string downcase hex) = hexToRgb hex.
Proof.
  split; apply hexToRgb_map; intros c;
    first [apply upcase_facts | apply downcase_facts].
Qed.

Lemma exec_no_hash (re : list Regex.atom) (s : string) :
  starts_with_hash s = false ->
  Regex.exec (Regex.OptChar "#" :: re) s = Regex.exec re s.
Proof.
  destruct s as [|c s]; simpl; [reflexivity|]. now intros ->.
Qed.

Lemma exec_one_hash (n : nat) (re : list Regex.atom) (s : string) :
  starts_with_hash s = false ->
  Regex.exec (Regex.OptChar "#" :: Regex.Capture (S n) hex_class :: re) (String "#" s) =
  Regex.exec (Regex.OptChar "#" :: Regex.Capture (S n) hex_class :: re) s.
Proof.
  intros H. now rewrite exec_hash_prefix, exec_no_hash.
Qed.

Lemma exec_two_hashes (n : nat) (re : list Regex.atom) (s : string) :
  Regex.exec (Regex.OptChar "#" :: Regex.Capture (S n) hex_class :: re)
    (String "#" (String "#" s)) = None.
Proof.
  now rewrite exec_hash_prefix.
Qed.

(** X2. The leading [#] is optional, once: before a string that does not
    begin with [#] it changes nothing of the result, and a string that
    begins with two of them decodes to [null]. *)
Theorem hexToRgb_hash_optional_once (hex : string) :
  (starts_with_hash hex = false -> hexToRgb (String "#" hex) = hexToRgb hex) /\
  hexToRgb (String "#" (String "#" hex)) = None.
Proof.
  split.
  - intros H. unfold hexToRgb, cleanHex, shorthandRegex, fullRegex.
    rewrite (exec_one_hash 0 _ hex H).
    fold shorthandRegex.
    destruct (Regex.exec shorthandRegex hex) as [caps|] eqn:E.
    + destruct (shorthand_match hex caps E) as [_ (r & g & b & ->)]. reflexivity.
    + now rewrite (exec_one_hash 1 _ hex H).
  - unfold hexToRgb, cleanHex, shorthandRegex, fullRegex.
    now rewrite (exec_two_hashes 0), (exec_two_hashes 1).
Qed.

(** X2 at ["ff0000"]. *)
Lemma hexToRgb_hash_optional_once_witness :
  hexToRgb "#ff0000" = hexToRgb "ff0000".
Proof.
  exact (proj1 (hexToRgb_hash_optional_once "ff0000") eq_refl).
Defined.

(** X3. Whatever the string, a result of [hexToRgb] holds three integers
    from 0 to 255, never NaN, and the string then has one of the two
    accepted shapes. *)
Theorem hexToRgb_result_is_bytes (hex : string) (rgb : Rgb.t) :
  hexToRgb hex = Some rgb ->
  (is_byte (Rgb.r rgb) /\ is_byte (Rgb.g rgb) /\ is_byte (Rgb.b rgb)) /\
  (six_digit hex \/ three_digit hex) /\
  (String.length hex <= 7)%nat.
Proof.
  intros H. split; [now apply hexToRgb_bytes with hex|].
  pose proof (hexToRgb_some hex rgb H) as S. split; [exact S|].
  destruct S as [(h1 & h2 & h3 & h4 & h5 & h6 & _ & [-> | ->])
                | (h1 & h2 & h3 & _ & [-> | ->])]; simpl; lia.
Qed.

(** X3 at ["#8A2BE2"]. *)
Lemma hexToRgb_result_is_bytes_witness :
  is_byte (Int 138) /\ is_byte (Int 43) /\ is_byte (Int 226).
Proof.
  exact (proj1 (hexToRgb_result_is_bytes "#8A2BE2"
                  (Rgb.mk (Int 138) (Int 43) (Int 226)) eq_refl)).
Defined.

(** ** genRandomNumbers over any range *)

Section AnyRange.

Variable rnd : random_source.
Variables min max count : Z.

Local Notation "'draw' k" :=
  (Math_floor (rnd k * inject_Z (max - min)) + min) (at level 10).
Local Notation "'loop' fuel" :=
  (genRandomNumbers_loop fuel rnd min max count) (at level 10).







End AnyRange.




(** ** genRandomNumbers on binary64 numbers *)

Section Binary64.

Variable rnd : nat -> float.
Variables min max count : float.

Local Notation "'draw64' k" :=
  (Math_floor_f64 (rnd k * (max - min)) + min)%float (at level 10).
Local Notation "'loop64' fuel" :=
  (genRandomNumbers_f64_loop fuel rnd min max count) (at level 10).

Lemma indexOf_f64_absent (arr : list float) (x : float) :
  (indexOf_f64 arr x =? -1) = negb (existsb (fun y => PrimFloat.eqb y x) arr).
Proof.
  unfold indexOf_f64, findIndex.
  destruct (existsb (fun y => PrimFloat.eqb y x) arr) eqn:E; simpl.
  - apply (findIndex_from_some _ arr 0) in E. apply Z.eqb_neq. lia.
  - now rewrite findIndex_from_none.
Qed.

Lemma loop64_done (fuel : nat) (arr : list float) (k : nat) :
  (length_f64 arr <? count)%float = false -> loop64 fuel arr k = Some (arr, k).
Proof.
  intros H. destruct fuel; simpl; now rewrite H.
Qed.

Lemma loop64_step (fuel : nat) (arr : list float) (k : nat) :
  (length_f64 arr <? count)%float = true ->
  loop64 (S fuel) arr k =
  if existsb (fun y => PrimFloat.eqb y (draw64 k)) arr then loop64 fuel arr (S k)
  else loop64 fuel (arr ++ [draw64 k]) (S k).
Proof.
  intros H. cbn [genRandomNumbers_f64_loop]. rewrite H, indexOf_f64_absent.
  now destruct (existsb _ arr).
Qed.

Lemma loop64_cursor (fuel : nat) :
  forall arr k res k', loop64 fuel arr k = Some (res, k') -> (k <= k')%nat.
Proof.
  induction fuel as [|fuel IH]; intros arr k res k' H;
    destruct (length_f64 arr <? count)%float eqn:L;
    try (rewrite loop64_done in H by exact L; inversion H; lia).
  - simpl in H. rewrite L in H. discriminate.
  - rewrite loop64_step in H by exact L.
    destruct (existsb _ arr); apply IH in H; lia.
Qed.

Lemma loop64_push_new (fuel : nat) :
  forall arr k res k',
    loop64 fuel arr k = Some (res, k') ->
    res = push_new_f64 arr (draws_f64 rnd min max k (k' - k)) /\
    (length_f64 res <? count)%float = false /\
    forall m, (m < k' - k)%nat ->
      (length_f64 (push_new_f64 arr (draws_f64 rnd min max k m)) <? count)%float = true.
Proof.
  induction fuel as [|fuel IH]; intros arr k res k' H;
    destruct (length_f64 arr <? count)%float eqn:L;
    try (rewrite loop64_done in H by exact L; inversion H; subst;
         rewrite Nat.sub_diag; repeat split; [exact L | intros m Hm; lia]).
  - simpl in H. rewrite L in H. discriminate.
  - pose proof (loop64_cursor _ _ _ _ _ H) as Hk.
    rewrite loop64_step in H by exact L.
    assert (Hk' : (S k <= k')%nat)
      by (destruct (existsb _ arr); apply loop64_cursor in H; exact H).
    replace (k' - k)%nat with (S (k' - S k)) by lia.
    change (draws_f64 rnd min max k (S (k' - S k)))
      with (draw64 k :: draws_f64 rnd min max (S k) (k' - S k)).
    cbn [push_new_f64].
    destruct (existsb (fun y => PrimFloat.eqb y (draw64 k)) arr) eqn:E;
      destruct (IH _ _ _ _ H) as (Hres & Hend & Hmin);
      (split; [exact Hres|]); (split; [exact Hend|]);
      intros [|m] Hm; try exact L;
      change (draws_f64 rnd min max k (S m))
        with (draw64 k :: draws_f64 rnd min max (S k) m);
      cbn [push_new_f64]; rewrite E; apply Hmin; lia.
Qed.

(** X4. A run of [genRandomNumbers] that completes returns the values it
    computed from the calls of [Math.random()] (the floor of the binary64
    product, plus [min]), each kept the first time it comes and in that
    order; it stops at the draw after which [arr.length < count] fails,
    having consumed no draw more. *)
Theorem genRandomNumbers_first_distinct_draws (fuel k : nat) (res : list float) (k' : nat) :
  genRandomNumbers_f64 fuel rnd min max count k = Some (res, k') ->
  (k <= k')%nat /\
  res = push_new_f64 [] (draws_f64 rnd min max k (k' - k)) /\
  (length_f64 res <? count)%float = false /\
  forall m, (m < k' - k)%nat ->
    (length_f64 (push_new_f64 [] (draws_f64 rnd min max k m)) <? count)%float = true.
Proof.
  intros H. split; [now apply loop64_cursor in H|].
  now apply loop64_push_new with fuel.
Qed.

End Binary64.

(** [Math.random()] answering 0.7 over the range from 0 to 10: the binary64
    product is 7, not a value below it. *)
Example draw_of_seven_tenths :
  genRandomNumbers_f64 1 (fun _ => 0.7%float) 0 10 1 0 = Some ([7%float], 1%nat).
Proof. vm_compute. reflexivity. Qed.

(** Past 2^53 the sum with [min] rounds: over the range from 2^53 to
    2^53 + 2 every draw is 2^53, and below -2^53 a draw can be [max]. *)
Example draws_past_2_53 :
  draws_f64 (fun k => if Nat.even k then 0.25%float else 0.75%float)
    9007199254740992 9007199254740994 0 2
  = [9007199254740992%float; 9007199254740992%float] /\
  genRandomNumbers_f64 1 (fun _ => 0.5%float)
    (-9007199254740994) (-9007199254740992) 1 0
  = Some ([(-9007199254740992)%float], 1%nat).
Proof. split; vm_compute; reflexivity. Qed.

Example Math_floor_f64_values :
  map Math_floor_f64 [7; 6.999; 0.5; -0.5; -3; -3.2; 123456789.75; 5e-324]%float
  = [7; 6; 0; -1; -3; -4; 123456789; 0]%float.
Proof. vm_compute. reflexivity. Qed.

(** X4 with the values 0.05, 0.15, ... taken in turn over the range from 0
    to 10, three values asked for after one repeat. *)
Lemma genRandomNumbers_first_distinct_draws_witness :
  [0; 1; 2]%float
  = push_new_f64 []
      (draws_f64 (fun k => nth k [0.05; 0.05; 0.15; 0.25; 0.35]%float 0.95%float)
         0 10 0 (4 - 0)).
Proof.
  exact (proj1 (proj2 (genRandomNumbers_first_distinct_draws
                         (fun k => nth k [0.05; 0.05; 0.15; 0.25; 0.35]%float 0.95%float)
                         0 10 3 4 0 [0; 1; 2]%float 4 eq_refl))).
Defined.

(** ** The instance across ticks and configuration passes *)

Lemma configured_app {T : Type} (sel : call -> option T) (l g : ThreeGlobe) :
  configured sel (l ++ g) =
  match configured sel l with
  | Some v => Some v
  | None => configured sel g
  end.
Proof.
  induction l as [|c l IH]; simpl; [reflexivity|].
  destruct (sel c); [reflexivity | exact IH].
Qed.

Lemma startAnimation_on_app (globeConfig : GlobeConfig.t) (data : list Position.t)
    (g : ThreeGlobe) (gd : list RenderPoint.t) :
  startAnimation_on globeConfig data g gd = startAnimation_on globeConfig data [] gd ++ g.
Proof. reflexivity. Qed.

(** X7. A tick changes nothing of the instance but the ring dataset: every
    other property of the layers holds after the tick what it held before,
    whether the tick passed its guard or not. *)
Theorem ring_tick_keeps_layers {T : Type} (sel : call -> option T) (fuel : nat)
    (rnd : random_source) (globeData : option (list RenderPoint.t))
    (data : list Position.t) (s s' : TickState) :
  (forall d, sel (ringsData d) = None) ->
  ringTick fuel rnd globeData data s = Some s' ->
  option_map (configured sel) (instance s') = option_map (configured sel) (instance s).
Proof.
  intros Hsel H. unfold ringTick in H.
  destruct (instance s) as [g|] eqn:Hg; [|inversion H; subst; now rewrite Hg].
  destruct globeData as [gd|]; [|inversion H; subst; now rewrite Hg].
  destruct (len data =? 0); [inversion H; subst; now rewrite Hg|].
  destruct (genRandomNumbers fuel rnd 0 (len data) (ring_count data) (cursor s))
    as [[nums k']|]; [|discriminate].
  inversion H; subst. simpl. now rewrite Hsel.
Qed.

(** X7 at the page's arcs: the arcs of the arc layer after a tick. *)
Lemma ring_tick_keeps_layers_witness :
  exists s',
    ringTick 4 (round_robin 6) (Some []) mockData
      (mkTick [] (Some (startAnimation_on mockGlobeConfig mockData [] [])) 0) = Some s' /\
    option_map (configured the_arcsData) (instance s') = Some (Some mockData).
Proof.
  assert (Hrun : option_map cursor
                   (ringTick 4 (round_robin 6) (Some []) mockData
                      (mkTick [] (Some (startAnimation_on mockGlobeConfig mockData [] [])) 0))
                 = Some 4%nat)
    by (vm_compute; reflexivity).
  destruct (ringTick 4 (round_robin 6) (Some []) mockData
              (mkTick [] (Some (startAnimation_on mockGlobeConfig mockData [] [])) 0))
    as [s'|] eqn:E; [|discriminate Hrun].
  exists s'. split; [reflexivity|].
  rewrite (ring_tick_keeps_layers the_arcsData 4 (round_robin 6) (Some []) mockData
             (mkTick [] (Some (startAnimation_on mockGlobeConfig mockData [] [])) 0) s'
             (fun _ => eq_refl) E).
  reflexivity.
Defined.

Lemma points_at_length (nums : list Z) (gd : list RenderPoint.t) :
  List.length (points_at nums gd) =
  List.length (filter (fun i => includes nums (Z.of_nat i)) (seq 0 (List.length gd))).
Proof.
  unfold points_at.
  assert (G : forall L, (forall i, In i L -> (i < List.length gd)%nat) ->
              List.length
                (flat_map (fun i => match nth_error gd i with
                                    | Some p => if includes nums (Z.of_nat i) then [p] else []
                                    | None => []
                                    end) L)
              = List.length (filter (fun i => includes nums (Z.of_nat i)) L)).
  { induction L as [|i L IH]; intros HL; [reflexivity|].
    cbn [flat_map filter]. rewrite length_app, IH by (intros j Hj; apply HL; now right).
    destruct (nth_error gd i) as [p|] eqn:E.
    - destruct (includes nums (Z.of_nat i)); reflexivity.
    - apply nth_error_None in E. specialize (HL i (or_introl eq_refl)). lia. }
  apply G. intros i Hi. apply in_seq in Hi. lia.
Qed.

Lemma points_at_length_le (nums : list Z) (gd : list RenderPoint.t) :
  (List.length (points_at nums gd) <= List.length gd)%nat /\
  (List.length (points_at nums gd) <= List.length nums)%nat.
Proof.
  rewrite points_at_length. split.
  - eapply Nat.le_trans; [apply filter_length_le|]. rewrite length_seq. lia.
  - rewrite <- (length_map Z.of_nat). apply NoDup_incl_length.
    + apply NoDup_map_NoDup_ForallPairs; [intros a b _ _; apply Nat2Z.inj|].
      apply NoDup_filter, seq_NoDup.
    + intros z Hz. apply in_map_iff in Hz. destruct Hz as (i & <- & Hi).
      apply filter_In in Hi. now apply includes_In.
Qed.

(** X8. After a tick that passed its guard the ring dataset holds points of
    the point list only, no more of them than the count of the tick and no
    more than the list has, and each sits in the list at a position below
    the number of arcs: a point further down the list is never given a
    ring. *)
Theorem ring_dataset_bounds (fuel : nat) (rnd : random_source)
    (gd : list RenderPoint.t) (g : ThreeGlobe) (data : list Position.t)
    (s s' : TickState) :
  unit_interval rnd -> instance s = Some g -> data <> [] ->
  ringTick fuel rnd (Some gd) data s = Some s' ->
  exists rings,
    option_map (configured the_ringsData) (instance s') = Some (Some rings) /\
    incl rings gd /\
    len rings <= ring_count data /\
    len rings <= len gd /\
    forall p, In p rings ->
      exists i : nat, (i < List.length data)%nat /\ nth_error gd i = Some p.
Proof.
  intros Hunit Hg Hdata H.
  rewrite (ringTick_guarded fuel rnd gd g) in H by assumption.
  destruct (genRandomNumbers fuel rnd 0 (len data) (ring_count data) (cursor s))
    as [[nums k']|] eqn:E; [|discriminate].
  inversion H; subst; clear H.
  destruct (genRandomNumbers_sound fuel rnd (len data) (ring_count data) (cursor s)
              nums k' Hunit (len_pos data Hdata) (proj1 (ring_count_le data)) E)
    as (Hlen & _ & Hrange).
  exists (points_at nums gd). split; [cbn; now rewrite filter_points_at|].
  destruct (points_at_length_le nums gd) as [L1 L2]. unfold len in *.
  split; [|split; [lia | split; [lia|]]].
  - intros p Hp. apply points_at_In in Hp. destruct Hp as (i & Hi & _).
    eapply nth_error_In; eassumption.
  - intros p Hp. apply points_at_In in Hp. destruct Hp as (i & Hi & Hin).
    exists i. split; [|exact Hi]. specialize (Hrange _ Hin). lia.
Qed.

(** X8 at the page's arcs and points. *)
Lemma ring_dataset_bounds_witness :
  exists s' rings,
    ringTick 4 (round_robin 6)
      (Some (_buildData_filteredPoints integral_toString mockGlobeConfig mockData))
      mockData (mkTick [] (Some []) 0) = Some s' /\
    option_map (configured the_ringsData) (instance s') = Some (Some rings) /\
    len rings <= 4.
Proof.
  assert (Hrun : option_map cursor
                   (ringTick 4 (round_robin 6)
                      (Some (_buildData_filteredPoints integral_toString
                               mockGlobeConfig mockData))
                      mockData (mkTick [] (Some []) 0))
                 = Some 4%nat)
    by (vm_compute; reflexivity).
  destruct (ringTick 4 (round_robin 6)
              (Some (_buildData_filteredPoints integral_toString mockGlobeConfig mockData))
              mockData (mkTick [] (Some []) 0)) as [s'|] eqn:E;
    [|discriminate Hrun].
  destruct (ring_dataset_bounds 4 (round_robin 6) _ [] mockData
              (mkTick [] (Some []) 0) s'
              (round_robin_unit 6 eq_refl) eq_refl mockData_not_empty E)
    as (rings & H1 & _ & H3 & _).
  exists s', rings. split; [reflexivity|]. split; [exact H1|].
  rewrite ring_count_value in H3. exact H3.
Defined.

(** X9. A second configuration pass configures nothing anew: after
    [startAnimation] has run, running it again leaves every property of the
    layers with the value it had, the ring dataset empty again, and
    [globeData] as it was. *)
Theorem startAnimation_again {T : Type} (sel : call -> option T)
    (globeConfig : GlobeConfig.t) (data : list Position.t) (st : GlobeState) :
  option_map (configured sel)
    (globeRef (startAnimation globeConfig data (startAnimation globeConfig data st)))
  = option_map (configured sel) (globeRef (startAnimation globeConfig data st)) /\
  globeData (startAnimation globeConfig data (startAnimation globeConfig data st))
  = globeData st.
Proof.
  destruct st as [[g|] [gd|]]; try (split; reflexivity).
  unfold startAnimation. cbn [globeRef globeData option_map].
  split; [|reflexivity]. f_equal.
  rewrite (startAnimation_on_app globeConfig data (startAnimation_on globeConfig data g gd)).
  rewrite (startAnimation_on_app globeConfig data g gd).
  rewrite !configured_app.
  now destruct (configured sel (startAnimation_on globeConfig data [] gd)).
Qed.

(** ** Further properties of [_buildData] *)

Lemma keep_first_length (l : list RenderPoint.t) :
  forall seen, (List.length (keep_first seen l) <= List.length l)%nat.
Proof.
  induction l as [|p l IH]; intros seen; simpl; [lia|].
  destruct (existsb _ seen); simpl; [specialize (IH seen) | specialize (IH (seen ++ [p]))];
    lia.
Qed.

Lemma keep_first_app (l1 l2 : list RenderPoint.t) :
  forall seen,
    keep_first seen (l1 ++ l2) =
    keep_first seen l1 ++ keep_first (seen ++ keep_first seen l1) l2.
Proof.
  induction l1 as [|p l1 IH]; intros seen; simpl.
  - now rewrite app_nil_r.
  - destruct (existsb _ seen); [apply IH|].
    simpl. rewrite IH. now rewrite <- app_assoc.
Qed.

Lemma filter_none {A : Type} (P : A -> bool) (l : list A) :
  forallb (fun a => negb (P a)) l = true -> filter P l = [].
Proof.
  induction l as [|a l IH]; simpl; [reflexivity|].
  intros H. apply andb_prop in H. destruct H as [Ha Hl].
  apply negb_true_iff in Ha. rewrite Ha. now apply IH.
Qed.

Section BuilderMore.

Variable Number_toString : float -> string.
Variable globeConfig : GlobeConfig.t.

Local Notation "'points'" := (_buildData_points Number_toString globeConfig).
Local Notation "'filteredPoints'" :=
  (_buildData_filteredPoints Number_toString globeConfig).

(** X10. Whatever the arcs, no point of the built dataset has a coordinate
    that is NaN: the filter keeps a point only if it is the first that
    equals it, and a point with a NaN equals no point, itself included.  The
    dataset is the first occurrences among the pushed points whose
    coordinates are numbers. *)
Theorem buildData_stores_no_nan (arcs : list Position.t) :
  filteredPoints arcs =
  keep_first [] (filter (fun v => same_lat_lng v v) (points arcs)) /\
  forall p, In p (filteredPoints arcs) ->
    is_number (RenderPoint.lat p) = true /\ is_number (RenderPoint.lng p) = true.
Proof.
  split; [apply filteredPoints_keep_first|].
  intros p Hp. rewrite filteredPoints_keep_first in Hp.
  apply keep_first_incl, filter_In in Hp. destruct Hp as [_ Hp].
  now apply same_lat_lng_spec in Hp.
Qed.

(** X11. The built dataset has at most two points for each arc whose colour
    decodes, hence at most twice as many points as arcs, and none when no
    colour decodes. *)
Theorem buildData_size (arcs : list Position.t) :
  (List.length (filteredPoints arcs) <= 2 * List.length (filter decodable arcs))%nat /\
  (List.length (filteredPoints arcs) <= 2 * List.length arcs)%nat /\
  (forallb (fun a => negb (decodable a)) arcs = true -> filteredPoints arcs = []).
Proof.
  assert (H1 : (List.length (filteredPoints arcs)
                <= 2 * List.length (filter decodable arcs))%nat).
  { rewrite filteredPoints_keep_first.
    eapply Nat.le_trans; [apply keep_first_length|].
    eapply Nat.le_trans; [apply filter_length_le|].
    rewrite <- (length_map coord_of), points_coords, endpoints_length. lia. }
  split; [exact H1|]. split.
  - pose proof (filter_length_le decodable arcs). lia.
  - intros Hnone. rewrite (filter_none decodable arcs Hnone) in H1. simpl in H1.
    destruct (filteredPoints arcs); [reflexivity | simpl in H1; lia].
Qed.

(** X12. Arcs added at the end of the list add points at the end of the
    dataset and change none: the dataset of [arcs1 ++ arcs2] is that of
    [arcs1] followed by the points of [arcs2] that are new to it. *)
Theorem buildData_append (arcs1 arcs2 : list Position.t) :
  filteredPoints (arcs1 ++ arcs2) =
  filteredPoints arcs1
  ++ keep_first (filteredPoints arcs1)
       (filter (fun v => same_lat_lng v v) (points arcs2)) /\
  firstn (List.length (filteredPoints arcs1)) (filteredPoints (arcs1 ++ arcs2))
  = filteredPoints arcs1.
Proof.
  assert (E : filteredPoints (arcs1 ++ arcs2) =
              filteredPoints arcs1
              ++ keep_first (filteredPoints arcs1)
                   (filter (fun v => same_lat_lng v v) (points arcs2))).
  { rewrite !filteredPoints_keep_first, points_app, filter_app, keep_first_app.
    reflexivity. }
  split; [exact E|]. rewrite E, firstn_app, Nat.sub_diag, firstn_all. simpl.
  now rewrite app_nil_r.
Qed.

End BuilderMore.

(** ** The count of a tick *)

Lemma filter_i_no_index (gd : list RenderPoint.t) :
  filter_i (fun (d : RenderPoint.t) i => includes [] i) gd = [].
Proof.
  unfold filter_i. generalize 0.
  induction gd as [|p l IH]; intros z; [reflexivity | apply IH].
Qed.

(** X13. The count of a tick is below the number of arcs as soon as there is
    one, and it is zero for a single arc: a tick over one arc then completes
    at once whatever the random source, without a call of [Math.random()],
    and empties the ring dataset. *)
Theorem ring_count_leaves_one_out (fuel : nat) (rnd : random_source)
    (gd : list RenderPoint.t) (g : ThreeGlobe) (data : list Position.t) (s : TickState) :
  data <> [] -> instance s = Some g ->
  0 <= ring_count data < len data /\
  (ring_count data = 0 <-> len data = 1) /\
  (len data = 1 ->
   ringTick fuel rnd (Some gd) data s
   = Some {| numbersOfRings := []; instance := Some (g |> ringsData []);
             cursor := cursor s |}).
Proof.
  intros Hdata Hg. pose proof (len_pos data Hdata) as Hpos.
  rewrite ring_count_value.
  assert (Hlt : (len data * 4) / 5 < len data)
    by (apply Z.div_lt_upper_bound; lia).
  split; [split; [apply Z.div_pos; lia | exact Hlt]|]. split.
  - split; intros H.
    + destruct (Z.eq_dec (len data) 1) as [E | E]; [exact E | exfalso].
      assert (1 <= (len data * 4) / 5) by (apply Z.div_le_lower_bound; lia). lia.
    + rewrite H. reflexivity.
  - intros H1. rewrite (ringTick_guarded fuel rnd gd g) by assumption.
    unfold genRandomNumbers. rewrite loop_done.
    + now rewrite filter_i_no_index.
    + rewrite ring_count_value, H1. vm_compute. discriminate.
Qed.

(** X13 at the first arc of the page. *)
Lemma ring_count_leaves_one_out_witness :
  ring_count (firstn 1 mockData) = 0 <-> len (firstn 1 mockData) = 1.
Proof.
  exact (proj1 (proj2 (ring_count_leaves_one_out 0 (round_robin 6) [] []
                         (firstn 1 mockData) (mkTick [] (Some []) 0)
                         ltac:(discriminate) eq_refl))).
Defined.

(** ** The guard of the effect and the guard of its tick *)

(** X14. The effect and its tick test the same three things.  When the
    effect sets no interval, a tick on the same state would change nothing
    and draw nothing; when it sets one, its delay is 2000 and a tick on the
    same state passes its guard: if it completes, it has drawn the count of
    the tick and recorded a call of [ringsData]. *)
Theorem effect_and_tick_guards_agree (st : GlobeState) (data : list Position.t)
    (fuel : nat) (rnd : random_source) (k : nat) :
  (ringEffect st data = None ->
   ringTick fuel rnd (globeData st) data (tick_of st k) = Some (tick_of st k)) /\
  (forall delay, ringEffect st data = Some delay ->
     delay = 2000 /\
     forall s', ringTick fuel rnd (globeData st) data (tick_of st k) = Some s' ->
       len (numbersOfRings s') = ring_count data /\
       exists g rings, globeRef st = Some g /\ instance s' = Some (g |> ringsData rings)).
Proof.
  unfold ringEffect, ringTick, tick_of. cbn [instance cursor].
  destruct (globeRef st) as [g|]; [|split; [reflexivity | discriminate]].
  destruct (globeData st) as [gd|]; [|split; [reflexivity | discriminate]].
  destruct (len data =? 0) eqn:E; [split; [reflexivity | discriminate]|].
  split; [discriminate|]. intros delay Hd. inversion Hd. split; [reflexivity|].
  intros s' H.
  destruct (genRandomNumbers fuel rnd 0 (len data) (ring_count data) k)
    as [[nums k']|] eqn:R; [|discriminate].
  inversion H; subst. cbn [numbersOfRings instance]. split; [|eauto].
  apply (loop_sound rnd 0 (len data) (ring_count data) fuel _ _ _ _ R).
  unfold len at 1. simpl. apply ring_count_le.
Qed.
